(** * The readiness-driven echo server and echo client

    A shallow embedding of the two scripts of the [selectors] notebook,
    [selectors_echo_server.py] and [selectors_echo_client.py].

    - Channels (sockets) are identified by their file descriptor, a [nat].
    - Byte strings are [list byte]; Python's unbounded integers are [Z].
    - The selector's registration table is a finite map from channel to
      [SelectorKey].
    - Everything the scripts do to the outside world (socket calls and selector
      calls) is appended, in program order, to a [trace] of [Effect]s kept in
      the script's state; the [print], [getpeername] and [setblocking] calls
      have no effect on that state and are left out.
    - What the operating system answers (which channels are ready, what a
      [recv] will return, which connection an [accept] will produce) is input:
      one [list Ready] per call of [select].
    - An uncaught Python exception ends the script: every operation returns a
      [result], either [Ok] or [Raise] with the state at the point of the
      exception.
    - For the demo as a whole the two scripts are put at the two ends of one
      connection ([single_shot_demo]), and the answers of the operating system
      are computed from the bytes in transit.

    The definitions come first; the properties follow, one module per script. *)

From Stdlib Require Import ZArith List Lia Strings.Byte Strings.String.
From stdpp Require Import base gmap sets list.

Local Open Scope Z_scope.

Abbreviation channel := nat (only parsing).
Abbreviation bytes := (list byte) (only parsing).

Global Instance byte_eq_dec : EqDecision byte := Byte.byte_eq_dec.

(** ** Exceptions and results *)

(** The exceptions the scripts can meet: the two selector errors of the
    specification (both are [KeyError] in Python) and the [NameError] of a
    variable read before it was ever assigned. *)
Inductive Error : Type :=
| DuplicateRegistration
| NotRegistered
| NameError.

(** Result of a call that does not touch the script's variables. *)
Inductive try (A : Type) : Type :=
| Return (a : A)
| Throw (e : Error).
Arguments Return {A} a.
Arguments Throw {A} e.

(** Result of a statement run in state [S]. *)
Inductive result (S : Type) : Type :=
| Ok (st : S)
| Raise (e : Error) (st : S).
Arguments Ok {S} st.
Arguments Raise {S} e st.

Definition state_of {S : Type} (r : result S) : S :=
  match r with Ok st => st | Raise _ st => st end.

Definition and_then {S : Type} (r : result S) (k : S → result S) : result S :=
  match r with Ok st => k st | Raise e st => Raise e st end.

Notation "r >>> k" := (and_then r k) (at level 61, left associativity).

(** How a [while keep_running:] loop stands after a finite sequence of polls:
    it fell out of the loop ([Exited]), it is still looping when the polls run
    out ([Running]), or an exception ended it ([Crashed]). *)
Inductive Outcome (S : Type) : Type :=
| Exited (st : S)
| Running (st : S)
| Crashed (e : Error) (st : S).
Arguments Exited {S} st.
Arguments Running {S} st.
Arguments Crashed {S} e st.

Definition final {S : Type} (o : Outcome S) : S :=
  match o with Exited st => st | Running st => st | Crashed _ st => st end.

(** ** Python truth values *)

Definition truth_bytes (b : bytes) : bool :=
  match b with [] => false | _ :: _ => true end.

Definition truth_int (n : Z) : bool := negb (n =? 0).

Definition len (b : bytes) : Z := Z.of_nat (length b).

(** ** The outside world *)

(** One entry of what the operating system reports to a [select] call:
    channel [ready_fd] is ready for the events [ready_events]; a [recv] on it
    would be served from the pending bytes [ready_recv]; an [accept] on it
    would produce the connection [ready_accept]. *)
Record Ready : Type := mkReady {
  ready_fd : channel;
  ready_events : Z;
  ready_recv : bytes;
  ready_accept : channel
}.

(** [connection.recv(bufsize)]: at most [bufsize] of the pending bytes. *)
Definition recv (bufsize : nat) (pending : bytes) : bytes := take bufsize pending.
Global Arguments recv : simpl never.

(** The calls a script makes, in program order. *)
Inductive Effect : Type :=
| Dispatch (c : channel) (mask : Z)
| Recv (c : channel) (data : bytes)
| Sendall (c : channel) (data : bytes)
| Accept (sock new_connection : channel)
| Close (c : channel)
| Register (c : channel) (events : Z)
| Modify (c : channel) (events : Z)
| Unregister (c : channel).

Global Instance Effect_eq_dec : EqDecision Effect.
Proof. solve_decision. Defined.

(** ** The selector *)

Module selectors.

(** Modelled from the spec: the event constants of the [selectors] module,
    which is imported by the scripts and not part of the repository; the
    interest mask is a set drawn from READABLE and WRITABLE, encoded as the
    bits [1 << 0] and [1 << 1]. *)
Definition EVENT_READ : Z := 1.
Definition EVENT_WRITE : Z := 2.

(** Modelled from the spec: a registration, the tuple of channel,
    interest mask and opaque payload. *)
Record SelectorKey (D : Type) : Type := mkKey {
  fileobj : channel;
  events : Z;
  data : D
}.
Arguments mkKey {D} fileobj events data.
Arguments fileobj {D} s.
Arguments events {D} s.
Arguments data {D} s.

Section Selector.
Context {D : Type}.
Implicit Types sel : gmap nat (SelectorKey D).

(** Modelled from the spec: [register] of the [selectors] module fails
    with [DuplicateRegistration] if the channel is already registered and
    otherwise adds the registration. *)
Definition register (c : channel) (interest : Z) (payload : D) sel
  : try (gmap nat (SelectorKey D)) :=
  match sel !! c with
  | Some _ => Throw DuplicateRegistration
  | None => Return (<[c := mkKey c interest payload]> sel)
  end.

(** Modelled from the spec: [modify] of the [selectors] module fails with
    [NotRegistered] if the channel is absent and otherwise replaces mask
    and payload. *)
Definition modify (c : channel) (interest : Z) (payload : D) sel
  : try (gmap nat (SelectorKey D)) :=
  match sel !! c with
  | Some _ => Return (<[c := mkKey c interest payload]> sel)
  | None => Throw NotRegistered
  end.

(** Modelled from the spec: [unregister] of the [selectors] module
    removes the registration and fails with [NotRegistered] if absent. *)
Definition unregister (c : channel) sel : try (gmap nat (SelectorKey D)) :=
  match sel !! c with
  | Some _ => Return (delete c sel)
  | None => Throw NotRegistered
  end.

(** Modelled from the spec: [select] of the [selectors] module returns
    the ready-list, one pair of registration and observed mask for every
    reported channel that is registered and ready for one of its interest
    events, in the order of the report. The report entry is kept next to
    the pair so that the handler's [recv] or [accept] can be answered. *)
Definition select (os : list Ready) sel : list (SelectorKey D * Z * Ready) :=
  omap (λ r,
          match sel !! ready_fd r with
          | Some key =>
              let mask := Z.land (ready_events r) (events key) in
              if mask =? 0 then None else Some (key, mask, r)
          | None => None
          end) os.

(** Every registration is filed under its own channel. *)
Definition table_ok sel : Prop :=
  ∀ c key, sel !! c = Some key → fileobj key = c.

(** A call of one of the three operations that change the table. *)
Inductive Call : Type :=
| CallRegister (c : channel) (interest : Z) (payload : D)
| CallModify (c : channel) (interest : Z) (payload : D)
| CallUnregister (c : channel).

Definition call (op : Call) sel : try (gmap nat (SelectorKey D)) :=
  match op with
  | CallRegister c interest payload => register c interest payload sel
  | CallModify c interest payload => modify c interest payload sel
  | CallUnregister c => unregister c sel
  end.

(** The table after a call: a failed call leaves it as it was. *)
Definition after (op : Call) sel : gmap nat (SelectorKey D) :=
  match call op sel with Return sel' => sel' | Throw _ => sel end.

Definition after_all (ops : list Call) sel : gmap nat (SelectorKey D) :=
  foldl (λ s op, after op s) sel ops.

Definition is_unregister_of (c : channel) (op : Call) : Prop :=
  match op with CallUnregister c' => c' = c | _ => False end.

End Selector.
End selectors.

(** ** The dispatcher loop

    Both scripts run the same loop,
    [while keep_running: for key, mask in mysel.select(timeout=1): body],
    over their own state and their own loop body. *)

Section Loop.
Context {D S : Type}.
Variable mysel : S → gmap nat (selectors.SelectorKey D).
Variable keep_running : S → bool.
Variable body : selectors.SelectorKey D * Z * Ready → S → result S.

(** The [for] loop over a ready-list: an exception in the body ends it. *)
Fixpoint for_each (ready : list (selectors.SelectorKey D * Z * Ready)) (st : S)
  : result S :=
  match ready with
  | [] => Ok st
  | entry :: rest => body entry st >>> for_each rest
  end.

(** One pass of the [while] body: [select] is called once, on the table as
    it is then, and the [for] loop runs over what it returned. *)
Definition pass (os : list Ready) (st : S) : result S :=
  for_each (selectors.select os (mysel st)) st.

(** The [while] loop, over the answers of the successive [select] calls;
    the flag is tested before every pass. *)
Fixpoint while_keep_running (polls : list (list Ready)) (st : S) : Outcome S :=
  if keep_running st then
    match polls with
    | [] => Running st
    | os :: polls' =>
        match pass os st with
        | Ok st' => while_keep_running polls' st'
        | Raise e st' => Crashed e st'
        end
    end
  else Exited st.
End Loop.

(** The operating system reports a channel at most once per [select]. *)
Definition one_report_per_channel (os : list Ready) : Prop :=
  NoDup (ready_fd <$> os).

Global Instance one_report_per_channel_dec os :
  Decision (one_report_per_channel os).
Proof. unfold one_report_per_channel. apply _. Defined.

(** ** The echo server, [selectors_echo_server.py] *)

Module selectors_echo_server.
Import selectors.

(** The payload of a registration is one of the script's two callbacks. *)
Inductive Callback : Type :=
| callback_accept
| callback_read.

(** The script's global variables and the calls made so far. *)
Record State : Type := mkState {
  mysel : gmap nat (SelectorKey Callback);
  keep_running : bool;
  trace : list Effect
}.

Definition emit (e : Effect) (st : State) : State :=
  mkState (mysel st) (keep_running st) (trace st ++ [e]).

Definition set_mysel (sel : gmap nat (SelectorKey Callback)) (st : State) : State :=
  mkState sel (keep_running st) (trace st).

Definition set_keep_running (b : bool) (st : State) : State :=
  mkState (mysel st) b (trace st).

(** [def read(connection, mask)]: callback for read events. *)
Definition read (connection : channel) (mask : Z) (r : Ready) (st : State)
  : result State :=
  let data := recv 1024 (ready_recv r) in
  let st := emit (Recv connection data) st in
  if truth_bytes data then
    Ok (emit (Sendall connection data) st)
  else
    match unregister connection (mysel st) with
    | Throw e => Raise e st
    | Return sel =>
        let st := emit (Unregister connection) (set_mysel sel st) in
        let st := emit (Close connection) st in
        Ok (set_keep_running false st)
    end.

(** [def accept(sock, mask)]: callback for new connections. *)
Definition accept (sock : channel) (mask : Z) (r : Ready) (st : State)
  : result State :=
  let new_connection := ready_accept r in
  let st := emit (Accept sock new_connection) st in
  match register new_connection EVENT_READ callback_read (mysel st) with
  | Throw e => Raise e st
  | Return sel => Ok (emit (Register new_connection EVENT_READ) (set_mysel sel st))
  end.

Definition callback_of (cb : Callback) : channel → Z → Ready → State → result State :=
  match cb with
  | callback_accept => accept
  | callback_read => read
  end.

(** The body of [for key, mask in mysel.select(timeout=1)]. *)
Definition body (entry : SelectorKey Callback * Z * Ready) (st : State)
  : result State :=
  let '(key, mask, r) := entry in
  let callback := callback_of (data key) in
  callback (fileobj key) mask r (emit (Dispatch (fileobj key) mask) st).

Definition iteration : list Ready → State → result State :=
  pass mysel body.

Definition main_loop : list (list Ready) → State → Outcome State :=
  while_keep_running mysel keep_running body.

(** The state when the loop is entered: the listening socket [server] is
    registered for read events with [accept] as its callback. *)
Definition startup (server : channel) : State :=
  mkState {[ server := mkKey server EVENT_READ callback_accept ]} true
          [Register server EVENT_READ].

Definition script (server : channel) (polls : list (list Ready)) : Outcome State :=
  main_loop polls (startup server).

(** The bytes the script got from, and sent on, connection [c]. *)
Definition received_on (c : channel) (t : list Effect) : bytes :=
  concat (omap (λ e, match e with
                     | Recv c' data => if decide (c' = c) then Some data else None
                     | _ => None
                     end) t).

Definition echoed_on (c : channel) (t : list Effect) : bytes :=
  concat (omap (λ e, match e with
                     | Sendall c' data => if decide (c' = c) then Some data else None
                     | _ => None
                     end) t).

Definition dispatched_on (c : channel) (e : Effect) : bool :=
  match e with
  | Dispatch c' _ => bool_decide (c' = c)
  | _ => false
  end.

(** The channel a ready-list entry is about. *)
Definition channel_of (entry : SelectorKey Callback * Z * Ready) : channel :=
  fileobj entry.1.1.

(** The five ways the loop body can go for channel [c] in state [st]: data is
    echoed; a zero-length read tears the connection down; a zero-length read
    on a channel that is not registered raises; a connection is accepted; the
    accepted connection is already registered and [register] raises. *)
Inductive dispatched (c : channel) (mask : Z) (st : State) : result State → Prop :=
| dispatched_echo data :
    data ≠ [] →
    dispatched c mask st
      (Ok (mkState (mysel st) (keep_running st)
             (trace st ++ [Dispatch c mask; Recv c data; Sendall c data])))
| dispatched_eof key :
    mysel st !! c = Some key →
    dispatched c mask st
      (Ok (mkState (delete c (mysel st)) false
             (trace st ++ [Dispatch c mask; Recv c []; Unregister c; Close c])))
| dispatched_eof_absent :
    mysel st !! c = None →
    dispatched c mask st
      (Raise NotRegistered
         (mkState (mysel st) (keep_running st)
            (trace st ++ [Dispatch c mask; Recv c []])))
| dispatched_accept n :
    mysel st !! n = None →
    dispatched c mask st
      (Ok (mkState (<[n := mkKey n EVENT_READ callback_read]> (mysel st))
             (keep_running st)
             (trace st ++ [Dispatch c mask; Accept c n; Register n EVENT_READ])))
| dispatched_accept_duplicate n key :
    mysel st !! n = Some key →
    dispatched c mask st
      (Raise DuplicateRegistration
         (mkState (mysel st) (keep_running st)
            (trace st ++ [Dispatch c mask; Accept c n]))).

(** A zero-length read on [c] is followed at once by [unregister] and
    [close], and by no further dispatch on [c]. *)
Definition eof_terminal (t : list Effect) : Prop :=
  ∀ c l1 l2,
    t = l1 ++ Recv c [] :: l2 →
    ∃ l3, l2 = Unregister c :: Close c :: l3 ∧
          Forall (λ e, dispatched_on c e = false) l3.

(** What was received on a connection has been echoed on it. *)
Definition in_balance (t : list Effect) : Prop :=
  ∀ c, echoed_on c t = received_on c t.

(** Whatever was received on a connection before its zero-length read has
    been echoed by then. *)
Definition echoed_before_eof (t : list Effect) : Prop :=
  ∀ c l1 l2,
    t = l1 ++ Recv c [] :: l2 → echoed_on c l1 = received_on c l1.

(** What holds of the server after any number of dispatches: zero-length
    reads are terminal in the trace, and one of them has turned the flag off. *)
Definition eof_handled (st : State) : Prop :=
  eof_terminal (trace st) ∧
  ∀ c, Recv c [] ∈ trace st → keep_running st = false.

(** What holds in the middle of a [for] loop with [rest] still to be handled:
    the entries left are about distinct, registered channels, none of which
    has had its zero-length read. *)
Definition mid_pass (rest : list (SelectorKey Callback * Z * Ready)) (st : State)
  : Prop :=
  eof_handled st ∧
  table_ok (mysel st) ∧
  (∀ entry, entry ∈ rest → is_Some (mysel st !! channel_of entry)) ∧
  NoDup (channel_of <$> rest) ∧
  ∀ c, Recv c [] ∈ trace st → c ∉ channel_of <$> rest.

(** An entry of the ready-list that will be handled by [read] and whose
    [recv] will return no bytes: the peer has closed the connection. *)
Definition reports_eof (entry : SelectorKey Callback * Z * Ready) : Prop :=
  data entry.1.1 = callback_read ∧ recv 1024 (ready_recv entry.2) = [].

End selectors_echo_server.

(** ** The echo client, [selectors_echo_client.py] *)

Module selectors_echo_client.
Import selectors.

(** The script's global variables and the calls made so far. The payload of
    its one registration is Python's [None], here [tt]; [connection] is
    unbound until the loop body has run once. *)
Record State : Type := mkState {
  mysel : gmap nat (SelectorKey unit);
  keep_running : bool;
  outgoing : list bytes;
  bytes_sent : Z;
  bytes_received : Z;
  connection : option channel;
  trace : list Effect
}.

Definition emit (e : Effect) (st : State) : State :=
  mkState (mysel st) (keep_running st) (outgoing st) (bytes_sent st)
          (bytes_received st) (connection st) (trace st ++ [e]).

Definition set_mysel (sel : gmap nat (SelectorKey unit)) (st : State) : State :=
  mkState sel (keep_running st) (outgoing st) (bytes_sent st)
          (bytes_received st) (connection st) (trace st).

Definition set_keep_running (b : bool) (st : State) : State :=
  mkState (mysel st) b (outgoing st) (bytes_sent st)
          (bytes_received st) (connection st) (trace st).

Definition set_outgoing (q : list bytes) (st : State) : State :=
  mkState (mysel st) (keep_running st) q (bytes_sent st)
          (bytes_received st) (connection st) (trace st).

Definition set_bytes_sent (n : Z) (st : State) : State :=
  mkState (mysel st) (keep_running st) (outgoing st) n
          (bytes_received st) (connection st) (trace st).

Definition set_bytes_received (n : Z) (st : State) : State :=
  mkState (mysel st) (keep_running st) (outgoing st) (bytes_sent st)
          n (connection st) (trace st).

Definition set_connection (c : channel) (st : State) : State :=
  mkState (mysel st) (keep_running st) (outgoing st) (bytes_sent st)
          (bytes_received st) (Some c) (trace st).

(** [outgoing.pop()] on a list that is not empty: the last element and the
    list without it. *)
Definition pop (q : list bytes) : bytes * list bytes :=
  (List.last q [], removelast q).

Section WithSocket.
(** The script's connected socket. *)
Variable sock : channel.

(** The branch [if mask & selectors.EVENT_READ:]. *)
Definition ready_to_read (c : channel) (r : Ready) (st : State) : State :=
  let data := recv 1024 (ready_recv r) in
  let st := emit (Recv c data) st in
  let st :=
    if truth_bytes data
    then set_bytes_received (bytes_received st + len data) st
    else st in
  set_keep_running
    (negb (truth_bytes data
           || (truth_int (bytes_received st)
               && (bytes_received st =? bytes_sent st))))
    st.

(** The branch [if mask & selectors.EVENT_WRITE:]. *)
Definition ready_to_write (st : State) : result State :=
  match outgoing st with
  | [] =>
      match modify sock EVENT_READ tt (mysel st) with
      | Throw e => Raise e st
      | Return sel => Ok (emit (Modify sock EVENT_READ) (set_mysel sel st))
      end
  | _ :: _ =>
      let '(next_msg, rest) := pop (outgoing st) in
      let st := set_outgoing rest st in
      let st := emit (Sendall sock next_msg) st in
      Ok (set_bytes_sent (bytes_sent st + len next_msg) st)
  end.

(** The body of [for key, mask in mysel.select(timeout=1)]. *)
Definition body (entry : SelectorKey unit * Z * Ready) (st : State)
  : result State :=
  let '(key, mask, r) := entry in
  let st := set_connection (fileobj key) (emit (Dispatch (fileobj key) mask) st) in
  let st :=
    if truth_int (Z.land mask EVENT_READ)
    then ready_to_read (fileobj key) r st
    else st in
  if truth_int (Z.land mask EVENT_WRITE) then ready_to_write st else Ok st.

Definition iteration : list Ready → State → result State :=
  pass mysel body.

Definition main_loop : list (list Ready) → State → Outcome State :=
  while_keep_running mysel keep_running body.

(** The three statements after the loop; [mysel.close()] leaves nothing
    to record. *)
Definition shutdown (st : State) : result State :=
  match connection st with
  | None => Raise NameError st
  | Some c =>
      match unregister c (mysel st) with
      | Throw e => Raise e st
      | Return sel => Ok (emit (Close c) (emit (Unregister c) (set_mysel sel st)))
      end
  end.

(** The two messages of the script's [outgoing] list. *)
Definition messages : list bytes :=
  [ list_byte_of_string "It will be repeated.";
    list_byte_of_string "This is the message.  " ].

(** The state when the loop is entered, for a given [outgoing] list. *)
Definition startup_with (q : list bytes) : State :=
  mkState {[ sock := mkKey sock (Z.lor EVENT_READ EVENT_WRITE) tt ]} true
          q 0 0 None
          [Register sock (Z.lor EVENT_READ EVENT_WRITE)].

Definition startup : State := startup_with messages.

Definition script (polls : list (list Ready)) : Outcome State :=
  match main_loop polls startup with
  | Exited st =>
      match shutdown st with
      | Ok st' => Exited st'
      | Raise e st' => Crashed e st'
      end
  | o => o
  end.

End WithSocket.

(** The messages handed to [sendall], oldest first. *)
Definition transmitted (t : list Effect) : list bytes :=
  omap (λ e, match e with Sendall _ data => Some data | _ => None end) t.

Definition is_modify (e : Effect) : bool :=
  match e with Modify _ _ => true | _ => false end.

(** How many times [mysel.modify] was called. *)
Definition modifications (t : list Effect) : nat :=
  length (filter (λ e, is_modify e = true) t).

(** The interest mask under which [c] is registered, [0] if it is not. *)
Definition interest (c : channel) (st : State) : Z :=
  match mysel st !! c with
  | Some key => events key
  | None => 0
  end.

(** The state in which the two branches of the body run: the dispatch is
    recorded and [connection] is bound. *)
Definition entered (key : SelectorKey unit) (mask : Z) (st : State) : State :=
  set_connection (fileobj key) (emit (Dispatch (fileobj key) mask) st).

(** The selector holds one registration, that of [sock], with [interest]. *)
Definition only_sock (sock : channel) (interest : Z) (st : State) : Prop :=
  mysel st = {[ sock := mkKey sock interest tt ]}.

(** The two phases of the client: [modify] was never called and [sock] is
    registered for reading and writing; or it was called once, [sock] is
    registered for reading only, and the queue is empty. *)
Definition phase (sock : channel) (st : State) : Prop :=
  (modifications (trace st) = 0%nat ∧
   only_sock sock (Z.lor EVENT_READ EVENT_WRITE) st) ∨
  (modifications (trace st) = 1%nat ∧
   only_sock sock EVENT_READ st ∧ outgoing st = []).

(** What holds of the client between two passes of its loop: it is in one of
    its two phases; while the loop goes on nothing has been received; and
    once the flag is off [connection] is bound to [sock]. *)
Definition between_passes (sock : channel) (st : State) : Prop :=
  phase sock st ∧
  (keep_running st = true → bytes_received st = 0) ∧
  (keep_running st = false → connection st = Some sock).

End selectors_echo_client.

(** ** The two scripts over one connection

    The single-shot demo: the client script and the server script run as two
    processes joined by one TCP connection. The client's [connect] has
    completed before its loop starts, so a connection is pending on the
    listening socket until the server accepts it. Bytes handed to [sendall]
    are first in flight and become readable at the other end when the network
    delivers them, in order; both sockets are always writable; a socket whose
    peer has ended and whose pending bytes are all read is readable, and
    [recv] on it returns no bytes. Each process runs one pass of its loop at a
    time, in any interleaving with the other and with the network. *)

Module single_shot_demo.
Import selectors.

(** The bytes a sequence of calls took from, and gave to, the connection. *)
Definition bytes_read (io : list Effect) : bytes :=
  concat (omap (λ e, match e with Recv _ data => Some data | _ => None end) io).

Definition bytes_written (io : list Effect) : bytes :=
  concat (omap (λ e, match e with Sendall _ data => Some data | _ => None end) io).

Definition is_accept (e : Effect) : bool :=
  match e with Accept _ _ => true | _ => false end.

(** A process that has left its script, normally or by an exception, has its
    sockets closed. *)
Definition ended {S : Type} (o : Outcome S) : bool :=
  match o with Running _ => false | _ => true end.

(** The two processes, whether the pending connection has been accepted, and
    the bytes in transit: from the client in flight ([wire_up]) and delivered
    to the server but not yet read ([inbox_server]); from the server in flight
    ([wire_down]) and delivered to the client but not yet read
    ([inbox_client]). *)
Record World : Type := mkWorld {
  client : Outcome selectors_echo_client.State;
  echo_server : Outcome selectors_echo_server.State;
  accepted : bool;
  wire_up : bytes;
  inbox_server : bytes;
  wire_down : bytes;
  inbox_client : bytes
}.

(** What can happen next: either process runs one pass of its loop, or the
    network delivers the next [n] bytes in one direction. *)
Inductive Turn : Type :=
| ClientPass
| ServerPass
| DeliverUp (n : nat)
| DeliverDown (n : nat).

Section Demo.
(** The client's socket, the server's listening socket, and the server's end
    of the connection. *)
Variables sock server connection : channel.

(** What the operating system answers to the client's [select]. *)
Definition client_os (w : World) : list Ready :=
  let at_eof := ended (echo_server w)
                && bool_decide (wire_down w = [])
                && bool_decide (inbox_client w = []) in
  let readable := negb (bool_decide (inbox_client w = [])) || at_eof in
  [mkReady sock
     (Z.lor (if readable then EVENT_READ else 0) EVENT_WRITE)
     (inbox_client w) 0].

(** What the operating system answers to the server's [select]. *)
Definition server_os (w : World) : list Ready :=
  let at_eof := ended (client w)
                && bool_decide (wire_up w = [])
                && bool_decide (inbox_server w = []) in
  let readable := negb (bool_decide (inbox_server w = [])) || at_eof in
  (if accepted w then [] else [mkReady server EVENT_READ [] connection])
  ++ (if accepted w && readable
      then [mkReady connection EVENT_READ (inbox_server w) 0] else []).

(** The client takes one more answer of [select]: its loop runs on it, and
    if the loop is left the script goes on to its last three statements and
    ends. What the pass read is taken from the client's inbox and what it
    wrote is put on the wire. *)
Definition client_pass (w : World) : World :=
  match client w with
  | Running st =>
      let o := selectors_echo_client.main_loop sock [client_os w] st in
      let io := drop (length (selectors_echo_client.trace st))
                     (selectors_echo_client.trace (final o)) in
      let next :=
        match o with
        | Exited st' =>
            match selectors_echo_client.shutdown st' with
            | Ok st'' => Exited st''
            | Raise e st'' => Crashed e st''
            end
        | _ => o
        end in
      mkWorld next (echo_server w) (accepted w)
              (wire_up w ++ bytes_written io) (inbox_server w)
              (wire_down w) (drop (length (bytes_read io)) (inbox_client w))
  | _ => w
  end.

(** The server takes one more answer of [select]: its loop runs on it, and
    if the loop is left the script ends. *)
Definition server_pass (w : World) : World :=
  match echo_server w with
  | Running st =>
      let o := selectors_echo_server.main_loop [server_os w] st in
      let io := drop (length (selectors_echo_server.trace st))
                     (selectors_echo_server.trace (final o)) in
      mkWorld (client w) o (accepted w || existsb is_accept io)
              (wire_up w) (drop (length (bytes_read io)) (inbox_server w))
              (wire_down w ++ bytes_written io) (inbox_client w)
  | _ => w
  end.

Definition turn (t : Turn) (w : World) : World :=
  match t with
  | ClientPass => client_pass w
  | ServerPass => server_pass w
  | DeliverUp n =>
      mkWorld (client w) (echo_server w) (accepted w)
              (drop n (wire_up w)) (inbox_server w ++ take n (wire_up w))
              (wire_down w) (inbox_client w)
  | DeliverDown n =>
      mkWorld (client w) (echo_server w) (accepted w)
              (wire_up w) (inbox_server w)
              (drop n (wire_down w)) (inbox_client w ++ take n (wire_down w))
  end.

Definition run (schedule : list Turn) (w : World) : World :=
  foldl (λ w t, turn t w) w schedule.

(** Both loops are about to be entered and nothing has been sent. *)
Definition start : World :=
  mkWorld (Running (selectors_echo_client.startup sock))
          (Running (selectors_echo_server.startup server))
          false [] [] [] [].

(** The server's table before and after it has accepted the connection. *)
Definition server_table (acc : bool)
  : gmap nat (SelectorKey selectors_echo_server.Callback) :=
  if acc
  then <[connection := mkKey connection EVENT_READ selectors_echo_server.callback_read]>
         {[ server := mkKey server EVENT_READ selectors_echo_server.callback_accept ]}
  else {[ server := mkKey server EVENT_READ selectors_echo_server.callback_accept ]}.

(** What holds of the world between two turns: a client that is still
    running has its flag on and stands between two passes, and one that has
    ended has left its loop; a server that is still running has its flag on
    and its table as expected; neither has raised; every byte the client sent
    is in flight, waiting at the server, or echoed; every byte echoed is in
    flight, waiting at the client, or received; and nothing is echoed before
    the connection is accepted. *)
Definition consistent (w : World) : Prop :=
  match client w with
  | Running c =>
      selectors_echo_client.keep_running c = true ∧
      selectors_echo_client.between_passes sock c
  | Exited c => selectors_echo_client.keep_running c = false
  | Crashed _ _ => False
  end ∧
  match echo_server w with
  | Running s =>
      selectors_echo_server.keep_running s = true ∧
      selectors_echo_server.mysel s = server_table (accepted w)
  | Exited s => selectors_echo_server.keep_running s = false
  | Crashed _ _ => False
  end ∧
  let echoed :=
    selectors_echo_server.echoed_on connection
      (selectors_echo_server.trace (final (echo_server w))) in
  selectors_echo_client.bytes_sent (final (client w)) =
    len (wire_up w) + len (inbox_server w) + len echoed ∧
  len echoed =
    len (wire_down w) + len (inbox_client w) +
    selectors_echo_client.bytes_received (final (client w)) ∧
  (accepted w = false → echoed = []).

(** The client has ended, the connection is accepted and drained. *)
Definition drained (w : World) : Prop :=
  consistent w ∧
  ended (client w) = true ∧ accepted w = true ∧
  wire_up w = [] ∧ inbox_server w = [].

End Demo.
End single_shot_demo.

(** ** Further notions about the two echo scripts *)

Module echo_notions.
Import selectors.

(** The shape of the server's table: the listening socket is registered for
    read events with [accept] as callback, and every other registered channel
    is registered for read events with [read] as callback. *)
Definition table_shape (server : channel)
    (sel : gmap nat (SelectorKey selectors_echo_server.Callback)) : Prop :=
  sel !! server = Some (mkKey server EVENT_READ selectors_echo_server.callback_accept) ∧
  ∀ c key, sel !! c = Some key → c ≠ server →
           key = mkKey c EVENT_READ selectors_echo_server.callback_read.

(** A ready-list entry whose callback agrees with its channel: [accept] for
    the listening socket, [read] for any other. *)
Definition entry_agrees (server : channel)
    (entry : SelectorKey selectors_echo_server.Callback * Z * Ready) : Prop :=
  match data entry.1.1 with
  | selectors_echo_server.callback_accept => fileobj entry.1.1 = server
  | selectors_echo_server.callback_read => fileobj entry.1.1 ≠ server
  end.

(** Every [sendall] of the trace sends back, on the same channel, the data
    of the [recv] just before it, which is not empty and at most 1024 bytes. *)
Definition sends_only_echo (t : list Effect) : Prop :=
  ∀ l1 l2 c data,
    t = l1 ++ Sendall c data :: l2 →
    data ≠ [] ∧ (length data ≤ 1024)%nat ∧ ∃ l0, l1 = l0 ++ [Recv c data].

(** The trace has a zero-length read followed by the tear-down of its
    connection. *)
Definition saw_eof (t : list Effect) : Prop :=
  ∃ c l1 l2, t = l1 ++ Recv c [] :: Unregister c :: Close c :: l2.


(** All the bytes of a list of messages. *)
Definition total (q : list bytes) : Z := len (concat q).

End echo_notions.

(** ** The multicast receiver, [socket_multicast_receiver.py]

    The script binds a UDP socket, joins the multicast group on all
    interfaces and then, for ever, receives a datagram and sends the three
    bytes [ack] to the address it came from. The datagrams that arrive are
    input. The packed form of the membership request is not modelled: the
    call is recorded with the group address it names. *)

Module socket_multicast_receiver.

(** A socket address, host and port. *)
Definition Address : Type := string * Z.

(** A datagram on its way to the socket. *)
Record Datagram : Type := mkDatagram {
  payload : bytes;
  source : Address
}.

(** The socket calls of the script. *)
Inductive Call : Type :=
| Bind (address : Address)
| AddMembership (group : string)
| RecvFrom (data : bytes) (address : Address)
| SendTo (data : bytes) (address : Address).

Definition multicast_group : string := "224.3.29.71".
Definition server_address : Address := (EmptyString, 10000).

(** [sock.recvfrom(bufsize)]: the next datagram, cut to [bufsize] bytes, and
    the address of its sender. *)
Definition recvfrom (bufsize : nat) (d : Datagram) : bytes * Address :=
  (take bufsize (payload d), source d).

(** The calls made before the loop. *)
Definition startup : list Call :=
  [Bind server_address; AddMembership multicast_group].

(** The body of [while True:], on the calls made so far. *)
Definition body (d : Datagram) (calls : list Call) : list Call :=
  let '(data, address) := recvfrom 1024 d in
  calls ++ [RecvFrom data address; SendTo (list_byte_of_string "ack") address].

(** [while True:] over the datagrams that arrive; the loop has no exit. *)
Fixpoint receive_loop (incoming : list Datagram) (calls : list Call)
  : Outcome (list Call) :=
  match incoming with
  | [] => Running calls
  | d :: incoming' => receive_loop incoming' (body d calls)
  end.

Definition script (incoming : list Datagram) : Outcome (list Call) :=
  receive_loop incoming startup.



End socket_multicast_receiver.

(** * Properties *)

(** ** The selector's table *)

Module selector_properties.
Import selectors.

Section Table.
Context {D : Type}.
Implicit Types sel : gmap nat (SelectorKey D).

Lemma register_registers c interest payload sel sel' :
  register c interest payload sel = Return sel' →
  sel' !! c = Some (mkKey c interest payload).
Proof.
  unfold register. destruct (sel !! c); intros H; simplify_eq.
  apply lookup_insert_eq.
Qed.

Lemma unregister_removes c sel sel' :
  unregister c sel = Return sel' → sel' !! c = None.
Proof.
  unfold unregister. destruct (sel !! c); intros H; simplify_eq.
  apply lookup_delete_eq.
Qed.

(** A call that is not [unregister(c)] keeps [c] registered. *)
Lemma after_keeps_registered c op sel :
  ¬ is_unregister_of c op → is_Some (sel !! c) → is_Some (after op sel !! c).
Proof.
  intros Hop Hc. unfold after, call.
  destruct op as [c' i p | c' i p | c']; simpl in *.
  - unfold register. destruct (sel !! c') eqn:E; [done|].
    destruct (decide (c' = c)) as [->|Hne].
    + rewrite lookup_insert_eq. eauto.
    + by rewrite lookup_insert_ne.
  - unfold modify. destruct (sel !! c') eqn:E; [|done].
    destruct (decide (c' = c)) as [->|Hne].
    + rewrite lookup_insert_eq. eauto.
    + by rewrite lookup_insert_ne.
  - unfold unregister. destruct (sel !! c') eqn:E; [|done].
    rewrite lookup_delete_ne; [done|]. intros ->. by apply Hop.
Qed.

Lemma after_all_keeps_registered c ops sel :
  Forall (λ op, ¬ is_unregister_of c op) ops →
  is_Some (sel !! c) → is_Some (after_all ops sel !! c).
Proof.
  intros Hops. revert sel.
  induction Hops as [|op ops Hop _ IH]; intros sel Hc; [done|].
  simpl. apply IH. by apply after_keeps_registered.
Qed.

(** After [register(c, …)], whether it succeeded or not, [c] is registered. *)
Lemma after_register_registered c interest payload sel :
  is_Some (after (CallRegister c interest payload) sel !! c).
Proof.
  unfold after, call, register. destruct (sel !! c) eqn:E.
  - rewrite E. eauto.
  - rewrite lookup_insert_eq. eauto.
Qed.

(** C7. Duplicate registration: once [register(c, …)] has been called, a
    second [register(c, …)] fails with [DuplicateRegistration], whatever
    calls of [register], [modify] and [unregister] were made in between,
    as long as none of them is [unregister(c)]. *)
Theorem register_twice_fails c interest payload ops interest' payload' sel :
  Forall (λ op, ¬ is_unregister_of c op) ops →
  register c interest' payload'
    (after_all ops (after (CallRegister c interest payload) sel))
  = Throw DuplicateRegistration.
Proof.
  intros Hops.
  destruct (after_all_keeps_registered c ops
              (after (CallRegister c interest payload) sel) Hops
              (after_register_registered c interest payload sel))
    as [key Hkey].
  unfold register. by rewrite Hkey.
Qed.

(** C8. Unregistering an absent channel: [unregister(c)] on a table in
    which [c] is not registered fails with [NotRegistered]. *)
Theorem unregister_absent_fails c sel :
  sel !! c = None → unregister c sel = Throw NotRegistered.
Proof. intros H. unfold unregister. by rewrite H. Qed.

(** The caller must not unregister twice: the second call fails. *)
Lemma unregister_twice_fails c sel sel' :
  unregister c sel = Return sel' → unregister c sel' = Throw NotRegistered.
Proof.
  intros H. unfold unregister at 1. by rewrite (unregister_removes _ _ _ H).
Qed.

End Table.

Lemma register_twice_fails_witness :
  Forall (λ op, ¬ is_unregister_of 4%nat op)
         [CallRegister 5%nat EVENT_READ tt; CallModify 4%nat EVENT_READ tt;
          CallUnregister 5%nat] ∧
  register 4%nat EVENT_READ tt
    (after_all [CallRegister 5%nat EVENT_READ tt; CallModify 4%nat EVENT_READ tt;
                CallUnregister 5%nat]
       (after (CallRegister 4%nat (Z.lor EVENT_READ EVENT_WRITE) tt) ∅))
  = Throw DuplicateRegistration.
Proof.
  assert (H : Forall (λ op : Call (D:=unit), ¬ is_unregister_of 4%nat op)
                [CallRegister 5%nat EVENT_READ tt; CallModify 4%nat EVENT_READ tt;
                 CallUnregister 5%nat]).
  { repeat constructor; simpl; lia. }
  split; [exact H|].
  exact (register_twice_fails 4%nat (Z.lor EVENT_READ EVENT_WRITE) tt _
           EVENT_READ tt ∅ H).
Defined.

Lemma unregister_absent_fails_witness :
  let sel : gmap nat (SelectorKey unit) :=
    delete 4%nat (<[4%nat := mkKey 4%nat EVENT_READ tt]>
                    {[ 3%nat := mkKey 3%nat EVENT_READ tt ]}) in
  sel !! 4%nat = None ∧ unregister 4%nat sel = Throw NotRegistered.
Proof.
  intros sel.
  assert (H : sel !! 4%nat = None) by reflexivity.
  split; [exact H|]. exact (unregister_absent_fails 4%nat sel H).
Defined.

End selector_properties.

(** ** The dispatcher loop *)

Section LoopFacts.
Context {D S : Type}.
Variable mysel : S → gmap nat (selectors.SelectorKey D).
Variable keep_running : S → bool.
Variable body : selectors.SelectorKey D * Z * Ready → S → result S.

Local Abbreviation loop := (while_keep_running mysel keep_running body).

Lemma while_unfold polls st :
  loop polls st =
  if keep_running st then
    match polls with
    | [] => Running st
    | os :: polls' =>
        match pass mysel body os st with
        | Ok st' => loop polls' st'
        | Raise e st' => Crashed e st'
        end
    end
  else Exited st.
Proof. by destruct polls. Qed.

(** Running the loop over more polls continues from where it stood. *)
Lemma while_app polls1 polls2 st :
  loop (polls1 ++ polls2) st =
  match loop polls1 st with
  | Running st' => loop polls2 st'
  | o => o
  end.
Proof.
  revert st. induction polls1 as [|os polls1 IH]; intros st.
  - rewrite (while_unfold [] st). simpl.
    destruct (keep_running st) eqn:E; [done|].
    rewrite while_unfold. by rewrite E.
  - rewrite (while_unfold (os :: polls1) st). simpl app.
    rewrite (while_unfold (os :: polls1 ++ polls2) st).
    destruct (keep_running st); [|done].
    destruct (pass mysel body os st); [apply IH|done].
Qed.

(** The loop is left exactly when the flag is found false. *)
Lemma while_Exited polls st st' :
  loop polls st = Exited st' → keep_running st' = false.
Proof.
  revert st. induction polls as [|os polls IH]; intros st;
    rewrite while_unfold; destruct (keep_running st) eqn:E; try congruence.
  destruct (pass mysel body os st); [apply IH|congruence].
Qed.

Lemma while_Running polls st st' :
  loop polls st = Running st' → keep_running st' = true.
Proof.
  revert st. induction polls as [|os polls IH]; intros st;
    rewrite while_unfold; destruct (keep_running st) eqn:E; try congruence.
  destruct (pass mysel body os st); [apply IH|congruence].
Qed.

Lemma while_stopped polls st :
  keep_running st = false → loop polls st = Exited st.
Proof. intros E. rewrite while_unfold. by rewrite E. Qed.

(** What every run of the body preserves, the whole loop preserves. *)
Lemma for_each_preserves (I : S → Prop) :
  (∀ entry st, I st → I (state_of (body entry st))) →
  ∀ ready st, I st → I (state_of (for_each body ready st)).
Proof.
  intros Hbody. induction ready as [|entry ready IH]; intros st HI; [done|].
  simpl. specialize (Hbody entry st HI).
  destruct (body entry st) as [st'|e st']; simpl in *; [by apply IH|done].
Qed.

Lemma while_preserves (I : S → Prop) :
  (∀ entry st, I st → I (state_of (body entry st))) →
  ∀ polls st, I st → I (final (loop polls st)).
Proof.
  intros Hbody. induction polls as [|os polls IH]; intros st HI;
    rewrite while_unfold; destruct (keep_running st); try done.
  pose proof (for_each_preserves I Hbody (selectors.select os (mysel st)) st HI) as H.
  unfold pass. destruct (for_each _ _ _) as [st'|e st']; simpl in *; [by apply IH|done].
Qed.

(** The loop over one poll, entered with the flag on. *)
Lemma while_single os st :
  keep_running st = true →
  loop [os] st =
  match pass mysel body os st with
  | Ok st' => if keep_running st' then Running st' else Exited st'
  | Raise e st' => Crashed e st'
  end.
Proof.
  intros Hrun. rewrite while_unfold, Hrun.
  destruct (pass mysel body os st) as [st'|e st']; [|done].
  rewrite while_unfold. by destruct (keep_running st').
Qed.

(** A relation between the states before and after a run of the loop also
    relates the states reached after a sequence of polls and after a longer
    one. *)
Lemma while_longer (R : S → S → Prop) polls1 polls2 st :
  (∀ st, R st st) →
  (∀ polls st, R st (final (loop polls st))) →
  R (final (loop polls1 st)) (final (loop (polls1 ++ polls2) st)).
Proof.
  intros Hrefl Hrun. rewrite while_app.
  destruct (loop polls1 st) as [st1|st1|e st1]; simpl; [apply Hrefl|apply Hrun|apply Hrefl].
Qed.

(** An invariant that every pass over a well-formed report re-establishes
    without raising holds when the loop stops, and the loop does not crash. *)
Lemma while_never_crashes (I : S → Prop) (P : list Ready → Prop) :
  (∀ os st, P os → keep_running st = true → I st →
            ∃ st', pass mysel body os st = Ok st' ∧ I st') →
  ∀ polls st, Forall P polls → I st →
  ∃ st', (loop polls st = Exited st' ∨ loop polls st = Running st') ∧ I st'.
Proof.
  intros Hpass polls st Hpolls. revert st.
  induction Hpolls as [|os polls Hos _ IH]; intros st HI;
    rewrite while_unfold; destruct (keep_running st) eqn:Hrun; eauto.
  destruct (Hpass os st Hos Hrun HI) as (st' & -> & HI'). by apply IH.
Qed.

End LoopFacts.

(** What [select] returns. *)
Section SelectFacts.
Context {D : Type}.
Implicit Types sel : gmap nat (selectors.SelectorKey D).

Lemma select_entry os sel key mask r :
  (key, mask, r) ∈ selectors.select os sel →
  r ∈ os ∧ sel !! ready_fd r = Some key ∧
  mask = Z.land (ready_events r) (selectors.events key) ∧ mask ≠ 0.
Proof.
  unfold selectors.select. rewrite list_elem_of_omap.
  intros (r' & Hin & Hsome).
  destruct (sel !! ready_fd r') as [key'|] eqn:E; [|done].
  destruct (Z.eqb_spec (Z.land (ready_events r') (selectors.events key')) 0);
    simplify_eq.
  done.
Qed.

Lemma select_sublist os sel :
  (λ entry, ready_fd entry.2) <$> selectors.select os sel `sublist_of` ready_fd <$> os.
Proof.
  unfold selectors.select. induction os as [|r os IH]; simpl; [done|].
  destruct (sel !! ready_fd r) as [key|]; simpl.
  - destruct (_ =? 0); simpl; [by apply sublist_cons|by apply sublist_skip].
  - by apply sublist_cons.
Qed.

Lemma select_NoDup os sel :
  one_report_per_channel os →
  NoDup ((λ entry, ready_fd entry.2) <$> selectors.select os sel).
Proof. intros H. exact (sublist_NoDup _ _ H (select_sublist os sel)). Qed.

End SelectFacts.

(** ** The echo server *)

Module server_properties.
Import selectors selectors_echo_server.

Lemma split_at_effect (t more l1 l2 : list Effect) (e : Effect) :
  t ++ more = l1 ++ e :: l2 →
  (∃ k, t = l1 ++ e :: k ∧ l2 = k ++ more) ∨
  (∃ k, l1 = t ++ k ∧ more = k ++ e :: l2).
Proof.
  intros H. apply app_eq_inv in H as [(k & Ht & Hm)|(k & Hl & Hm)].
  - destruct k as [|e' k].
    + right. exists []. simplify_eq/=. by rewrite !app_nil_r.
    + left. simplify_eq/=. by exists k.
  - right. by exists k.
Qed.

(** The loop body goes one of the five ways of [dispatched]. *)
Lemma body_dispatched key mask r st :
  dispatched (fileobj key) mask st (body (key, mask, r) st).
Proof.
  unfold body, callback_of. destruct (data key).
  - unfold accept, emit, set_mysel, register; simpl.
    destruct (mysel st !! ready_accept r) as [key'|] eqn:E.
    + rewrite <- !app_assoc. simpl. by econstructor.
    + rewrite <- !app_assoc. simpl. by constructor.
  - unfold read, emit, set_mysel, set_keep_running, unregister; simpl.
    destruct (recv 1024 (ready_recv r)) as [|b data] eqn:Hdata; simpl.
    + destruct (mysel st !! fileobj key) as [key'|] eqn:E.
      * rewrite <- !app_assoc. simpl. by econstructor.
      * rewrite <- !app_assoc. simpl. by constructor.
    + rewrite <- !app_assoc. simpl. by constructor.
Qed.

Lemma echoed_on_app c t1 t2 :
  echoed_on c (t1 ++ t2) = echoed_on c t1 ++ echoed_on c t2.
Proof. unfold echoed_on. by rewrite omap_app, concat_app. Qed.

Lemma received_on_app c t1 t2 :
  received_on c (t1 ++ t2) = received_on c t1 ++ received_on c t2.
Proof. unfold received_on. by rewrite omap_app, concat_app. Qed.

(** *** Echo fidelity *)

Lemma body_in_balance entry st :
  in_balance (trace st) ∧ echoed_before_eof (trace st) →
  in_balance (trace (state_of (body entry st))) ∧
  echoed_before_eof (trace (state_of (body entry st))).
Proof.
  destruct entry as [[key mask] r]. intros [Hbal Heof].
  assert (Hpre : ∀ c c' m, echoed_on c (trace st ++ [Dispatch c' m])
                 = received_on c (trace st ++ [Dispatch c' m])).
  { intros c c' m. rewrite echoed_on_app, received_on_app, Hbal. done. }
  destruct (body_dispatched key mask r st); simpl; split;
    try (intros c; rewrite echoed_on_app, received_on_app, Hbal;
         unfold echoed_on, received_on; simpl; try case_decide; simpl;
         by rewrite ?app_nil_r);
    intros c l1 l2 Hs;
    apply split_at_effect in Hs as [(k & Ht & _)|(k & -> & Hm)];
    try (by eapply Heof);
    destruct k as [|? [|? [|? [|? k]]]]; simplify_eq/=; try done;
    try (by destruct k); apply Hpre.
Qed.

Lemma startup_trace_no_recv server c data l1 l2 :
  trace (startup server) ≠ l1 ++ Recv c data :: l2.
Proof. simpl. intros H. destruct l1 as [|? [|? l1]]; simplify_eq/=. Qed.

(** C1. Echo fidelity: a call of [read] that receives data that is not empty
    sends exactly that data back on the same connection and changes nothing
    else; hence in every run of the server, from any answers of the operating
    system, the bytes echoed on a connection are the bytes received on it,
    both at the end of the run and at the moment of its zero-length read. *)
Theorem echo_fidelity :
  (∀ connection mask r st data,
     data = recv 1024 (ready_recv r) → data ≠ [] →
     read connection mask r st =
     Ok (mkState (mysel st) (keep_running st)
           (trace st ++ [Recv connection data; Sendall connection data]))) ∧
  (∀ server polls c,
     let t := trace (final (script server polls)) in
     echoed_on c t = received_on c t ∧
     ∀ l1 l2, t = l1 ++ Recv c [] :: l2 → echoed_on c l1 = received_on c l1).
Proof.
  split.
  - intros connection mask r st data -> Hdata. unfold read.
    destruct (recv 1024 (ready_recv r)) as [|b data]; [done|]. simpl.
    unfold emit. simpl. by rewrite <- app_assoc.
  - intros server polls c t.
    assert (H : in_balance t ∧ echoed_before_eof t).
    { apply (while_preserves mysel keep_running body
               (λ st, in_balance (trace st) ∧ echoed_before_eof (trace st))
               body_in_balance).
      split; [done|]. intros c' l1 l2 Hsplit.
      by apply startup_trace_no_recv in Hsplit. }
    destruct H as [Hbal Heof]. split; [apply Hbal|]. intros l1 l2. apply Heof.
Qed.


(** *** Zero-length reads are terminal *)

Lemma eof_terminal_extend t more :
  eof_terminal t →
  (∀ c, Recv c [] ∈ t → Forall (λ e, dispatched_on c e = false) more) →
  (∀ c k l2, more = k ++ Recv c [] :: l2 →
             ∃ l3, l2 = Unregister c :: Close c :: l3 ∧
                   Forall (λ e, dispatched_on c e = false) l3) →
  eof_terminal (t ++ more).
Proof.
  intros Ht Hold Hnew c l1 l2 Hs.
  apply split_at_effect in Hs as [(k & Hk & ->)|(k & -> & Hm)].
  - destruct (Ht c l1 k Hk) as (l3 & -> & Hl3).
    exists (l3 ++ more). split; [done|].
    apply Forall_app. split; [done|]. apply Hold. rewrite Hk.
    apply elem_of_app. right. by left.
  - by eapply Hnew.
Qed.

Lemma keep_running_stays_false entry st :
  keep_running st = false → keep_running (state_of (body entry st)) = false.
Proof.
  destruct entry as [[key mask] r]. intros H.
  by destruct (body_dispatched key mask r st).
Qed.

Lemma body_eof_stops entry st st' :
  reports_eof entry → body entry st = Ok st' → keep_running st' = false.
Proof.
  destruct entry as [[key mask] r]. intros [Hcb Hdata]. simpl in *.
  unfold body, callback_of. rewrite Hcb. unfold read. rewrite Hdata. simpl.
  destruct (unregister _ _); intros H; by simplify_eq.
Qed.

Lemma for_each_eof_stops ready st st' entry :
  entry ∈ ready → reports_eof entry →
  for_each body ready st = Ok st' → keep_running st' = false.
Proof.
  revert st. induction ready as [|e ready IH]; intros st Hin Heof Hrun.
  - by apply elem_of_nil in Hin.
  - simpl in Hrun. destruct (body e st) as [st1|] eqn:Hb; [|done]. simpl in Hrun.
    apply elem_of_cons in Hin as [->|Hin].
    + pose proof (body_eof_stops _ _ _ Heof Hb) as Hst1.
      pose proof (for_each_preserves body (λ s, keep_running s = false)
                    keep_running_stays_false ready st1 Hst1) as H.
      by rewrite Hrun in H.
    + by eapply IH.
Qed.

Lemma body_mid_pass entry rest st :
  mid_pass (entry :: rest) st →
  eof_handled (state_of (body entry st)) ∧
  ∀ st', body entry st = Ok st' → mid_pass rest st'.
Proof.
  destruct entry as [[key mask] r].
  intros ([Hterm Hflag] & Htab & Hreg & Hnodup & Hfresh).
  apply NoDup_cons in Hnodup as [Hhead Hnodup].
  assert (Hc0 : is_Some (mysel st !! fileobj key)).
  { apply (Hreg (key, mask, r)). by left. }
  assert (Hne : ∀ c, Recv c [] ∈ trace st → c ≠ fileobj key).
  { intros c Hc ->. apply (Hfresh _ Hc). by left. }
  assert (Hrest : ∀ c, Recv c [] ∈ trace st → c ∉ channel_of <$> rest).
  { intros c Hc Hin. apply (Hfresh _ Hc). by right. }
  assert (Hregrest : ∀ entry, entry ∈ rest → is_Some (mysel st !! channel_of entry)).
  { intros e He. apply Hreg. by right. }
  assert (Hold : ∀ c more,
            Forall (λ e, match e with Dispatch _ _ => False | _ => True end) more →
            Recv c [] ∈ trace st →
            Forall (λ e, dispatched_on c e = false) (Dispatch (fileobj key) mask :: more)).
  { intros c more Hmore Hc. constructor.
    - simpl. apply bool_decide_eq_false. intros Heq. by apply (Hne c Hc).
    - eapply Forall_impl; [exact Hmore|]. by intros []. }
  destruct (body_dispatched key mask r st) as [d Hd|key' Hkey|Habs|n Hn|n key' Hn]; simpl.
  - (* data echoed *)
    assert (Hin : ∀ c, Recv c [] ∈ trace st ++ [Dispatch (fileobj key) mask;
                     Recv (fileobj key) d; Sendall (fileobj key) d] → Recv c [] ∈ trace st).
    { intros c [H|H]%elem_of_app; [done|].
      repeat (apply elem_of_cons in H as [H|H]; [by simplify_eq|]).
      by apply elem_of_nil in H. }
    assert (Hk : eof_handled
              (mkState (mysel st) (keep_running st)
                 (trace st ++ [Dispatch (fileobj key) mask;
                               Recv (fileobj key) d; Sendall (fileobj key) d]))).
    { split; simpl.
      - apply eof_terminal_extend; [done| |].
        + intros c Hc. apply Hold; [|done]. by repeat constructor.
        + intros c k l2 Hm.
          destruct k as [|? [|? [|? [|? k]]]]; simplify_eq/=; by destruct k.
      - intros c Hc. by eapply Hflag, Hin. }
    split; [done|]. intros st' [= <-]. repeat split; try done; simpl.
    + apply Hk.
    + apply Hk.
    + intros c Hc. by apply Hrest, Hin.
  - (* zero-length read *)
    assert (Hin : ∀ c, Recv c [] ∈ trace st ++ [Dispatch (fileobj key) mask;
                     Recv (fileobj key) []; Unregister (fileobj key);
                     Close (fileobj key)] → Recv c [] ∈ trace st ∨ c = fileobj key).
    { intros c [H|H]%elem_of_app; [by left|]. right.
      repeat (apply elem_of_cons in H as [H|H]; [by simplify_eq|]).
      by apply elem_of_nil in H. }
    assert (Hk : eof_handled
              (mkState (delete (fileobj key) (mysel st)) false
                 (trace st ++ [Dispatch (fileobj key) mask;
                     Recv (fileobj key) []; Unregister (fileobj key);
                     Close (fileobj key)]))).
    { split; simpl; [|done].
      apply eof_terminal_extend; [done| |].
      - intros c Hc. apply Hold; [|done]. by repeat constructor.
      - intros c k l2 Hm.
        destruct k as [|? [|? [|? [|? k]]]]; simplify_eq/=; try (by destruct k).
        exists []. by split. }
    split; [done|]. intros st' [= <-]. repeat split; try done; simpl.
    + apply Hk.
    + intros c key0 [_ H]%lookup_delete_Some. by apply Htab.
    + intros e He. rewrite lookup_delete_ne; [by apply Hregrest|].
      intros Heq. apply Hhead. apply list_elem_of_fmap. exists e. split; [exact Heq|done].
    + intros c Hc. destruct (Hin c Hc) as [H| ->]; [by apply Hrest|done].
  - (* zero-length read on an absent channel: excluded *)
    rewrite Habs in Hc0. by destruct Hc0.
  - (* connection accepted *)
    assert (Hin : ∀ c, Recv c [] ∈ trace st ++ [Dispatch (fileobj key) mask;
                     Accept (fileobj key) n; Register n EVENT_READ] → Recv c [] ∈ trace st).
    { intros c [H|H]%elem_of_app; [done|].
      repeat (apply elem_of_cons in H as [H|H]; [by simplify_eq|]).
      by apply elem_of_nil in H. }
    assert (Hk : eof_handled
              (mkState (<[n := mkKey n EVENT_READ callback_read]> (mysel st))
                 (keep_running st)
                 (trace st ++ [Dispatch (fileobj key) mask;
                     Accept (fileobj key) n; Register n EVENT_READ]))).
    { split; simpl.
      - apply eof_terminal_extend; [done| |].
        + intros c Hc. apply Hold; [|done]. by repeat constructor.
        + intros c k l2 Hm.
          destruct k as [|? [|? [|? [|? k]]]]; simplify_eq/=; by destruct k.
      - intros c Hc. by eapply Hflag, Hin. }
    split; [done|]. intros st' [= <-]. repeat split; try done; simpl.
    + apply Hk.
    + apply Hk.
    + intros c key0 [[<- <-]|[_ H]]%lookup_insert_Some; [done|by apply Htab].
    + intros e He. destruct (decide (n = channel_of e)) as [->|Hd].
      * rewrite lookup_insert_eq. eauto.
      * rewrite lookup_insert_ne; [by apply Hregrest|done].
    + intros c Hc. by apply Hrest, Hin.
  - (* the accepted connection is already registered *)
    split; [|done]. split; simpl.
    + apply eof_terminal_extend; [done| |].
      * intros c Hc. apply Hold; [|done]. by repeat constructor.
      * intros c k l2 Hm.
        destruct k as [|? [|? [|? k]]]; simplify_eq/=; by destruct k.
    + intros c [H|H]%elem_of_app; [by eapply Hflag|].
      repeat (apply elem_of_cons in H as [H|H]; [by simplify_eq|]).
      by apply elem_of_nil in H.
Qed.


Lemma for_each_mid_pass ready st :
  mid_pass ready st →
  eof_handled (state_of (for_each body ready st)) ∧
  ∀ st', for_each body ready st = Ok st' → table_ok (mysel st').
Proof.
  revert st. induction ready as [|entry ready IH]; intros st Hmid.
  - simpl. split; [apply Hmid|]. intros st' [= <-]. apply Hmid.
  - simpl. destruct (body_mid_pass entry ready st Hmid) as [Hk Hnext].
    destruct (body entry st) as [st1|e st1]; simpl in *.
    + by apply IH, Hnext.
    + by split.
Qed.

Lemma select_mid_pass os st :
  one_report_per_channel os → keep_running st = true →
  eof_handled st → table_ok (mysel st) →
  mid_pass (select os (mysel st)) st.
Proof.
  intros Hos Hrun Hk Htab.
  assert (Hch : ∀ entry, entry ∈ select os (mysel st) →
                  channel_of entry = ready_fd entry.2 ∧
                  is_Some (mysel st !! channel_of entry)).
  { intros [[key mask] r] (_ & Hkey & _)%select_entry. simpl.
    unfold channel_of. simpl. rewrite (Htab _ _ Hkey). eauto. }
  repeat split; try apply Hk; try done.
  - intros entry He. by apply Hch.
  - rewrite (list_fmap_ext channel_of (λ entry, ready_fd entry.2)).
    + by apply select_NoDup.
    + intros i entry He. apply Hch. by eapply list_elem_of_lookup_2.
  - intros c Hc. destruct Hk as [_ Hflag]. rewrite (Hflag c Hc) in Hrun. done.
Qed.

Lemma main_loop_eof_handled polls st :
  Forall one_report_per_channel polls →
  eof_handled st → table_ok (mysel st) →
  eof_handled (final (main_loop polls st)).
Proof.
  intros Hpolls. revert st.
  induction Hpolls as [|os polls Hos _ IH]; intros st Hk Htab;
    unfold main_loop; rewrite while_unfold;
    destruct (keep_running st) eqn:Hrun; try done.
  destruct (for_each_mid_pass _ _ (select_mid_pass os st Hos Hrun Hk Htab))
    as [Hk' Htab'].
  unfold pass. destruct (for_each body _ st) as [st'|e st']; simpl in *; [|done].
  by apply IH, Htab'.
Qed.

Lemma startup_eof_handled server : eof_handled (startup server).
Proof.
  split.
  - intros c l1 l2 H. by apply startup_trace_no_recv in H.
  - simpl. intros c H. apply list_elem_of_singleton in H. done.
Qed.

Lemma startup_table_ok server : table_ok (mysel (startup server)).
Proof.
  intros c key H. simpl in H. apply lookup_singleton_Some in H as [<- <-]. done.
Qed.

(** C3. Zero-length reads are terminal: a call of [read] whose [recv] returns
    no bytes unregisters the connection, closes it and turns [keep_running]
    off; and in every run of the server in which the operating system reports
    each channel at most once per [select], a zero-length read on a channel is
    followed at once by its [unregister] and [close], and no handler is
    dispatched on that channel afterwards. *)
Theorem eof_terminality :
  (∀ connection mask r st key,
     recv 1024 (ready_recv r) = [] → mysel st !! connection = Some key →
     read connection mask r st =
     Ok (mkState (delete connection (mysel st)) false
           (trace st ++ [Recv connection []; Unregister connection;
                         Close connection]))) ∧
  (∀ server polls c l1 l2,
     Forall one_report_per_channel polls →
     trace (final (script server polls)) = l1 ++ Recv c [] :: l2 →
     keep_running (final (script server polls)) = false ∧
     ∃ l3, l2 = Unregister c :: Close c :: l3 ∧
           Forall (λ e, dispatched_on c e = false) l3).
Proof.
  split.
  - intros connection mask r st key Hdata Hkey. unfold read. rewrite Hdata. simpl.
    unfold unregister, emit, set_mysel, set_keep_running. simpl. rewrite Hkey. simpl.
    by rewrite <- !app_assoc.
  - intros server polls c l1 l2 Hpolls Hs.
    destruct (main_loop_eof_handled polls (startup server) Hpolls
                (startup_eof_handled server) (startup_table_ok server))
      as [Hterm Hflag].
    split.
    + apply (Hflag c). unfold script in Hs. rewrite Hs.
      apply elem_of_app. right. by left.
    + by eapply Hterm.
Qed.

(** A pass in which a zero-length read is dispatched is the server's last. *)
Lemma server_stops_at_eof server before os after st st' entry :
  main_loop before (startup server) = Running st →
  entry ∈ select os (mysel st) → reports_eof entry →
  iteration os st = Ok st' →
  script server (before ++ os :: after) = Exited st' ∧ keep_running st' = false.
Proof.
  intros Hbefore Hin Heof Hpass.
  assert (Hstop : keep_running st' = false) by by eapply for_each_eof_stops.
  split; [|done]. unfold script, main_loop in *.
  rewrite while_app, Hbefore, while_unfold.
  rewrite (while_Running _ _ _ _ _ _ Hbefore).
  unfold iteration in Hpass. rewrite Hpass. by apply while_stopped.
Qed.

End server_properties.

(** ** The echo client *)

Module client_properties.
Import selectors selectors_echo_client.

Section WithSocket.
Variable sock : channel.

(** *** What the two branches do *)

Lemma ready_to_read_eq c r st :
  let data := recv 1024 (ready_recv r) in
  ready_to_read c r st =
  mkState (mysel st)
    (negb (truth_bytes data
           || (truth_int (bytes_received st + len data)
               && (bytes_received st + len data =? bytes_sent st))))
    (outgoing st) (bytes_sent st) (bytes_received st + len data)
    (connection st) (trace st ++ [Recv c data]).
Proof.
  intros data. unfold ready_to_read. fold data.
  destruct data as [|b data]; simpl; [|done].
  unfold len. simpl. by rewrite Z.add_0_r.
Qed.

Lemma pop_snoc q m : pop (q ++ [m]) = (m, q).
Proof. unfold pop. by rewrite last_last, removelast_last. Qed.

Lemma ready_to_write_send q m st :
  outgoing st = q ++ [m] →
  ready_to_write sock st =
  Ok (mkState (mysel st) (keep_running st) q (bytes_sent st + len m)
        (bytes_received st) (connection st) (trace st ++ [Sendall sock m])).
Proof.
  intros Hq. unfold ready_to_write. rewrite Hq, pop_snoc.
  by destruct q.
Qed.

Lemma ready_to_write_modify key st :
  outgoing st = [] → mysel st !! sock = Some key →
  ready_to_write sock st =
  Ok (mkState (<[sock := mkKey sock EVENT_READ tt]> (mysel st)) (keep_running st)
        [] (bytes_sent st) (bytes_received st) (connection st)
        (trace st ++ [Modify sock EVENT_READ])).
Proof.
  intros Hq Hkey. unfold ready_to_write, modify. rewrite Hq, Hkey.
  unfold emit, set_mysel. simpl. by rewrite Hq.
Qed.

Lemma ready_to_write_absent st :
  outgoing st = [] → mysel st !! sock = None →
  ready_to_write sock st = Raise NotRegistered st.
Proof. intros Hq Hkey. unfold ready_to_write, modify. by rewrite Hq, Hkey. Qed.

Lemma body_eq key mask r st :
  body sock (key, mask, r) st =
  let st1 := entered key mask st in
  let st2 := if truth_int (Z.land mask EVENT_READ)
             then ready_to_read (fileobj key) r st1 else st1 in
  if truth_int (Z.land mask EVENT_WRITE) then ready_to_write sock st2 else Ok st2.
Proof. done. Qed.


Lemma ready_to_write_cases st :
  (∃ q m, outgoing st = q ++ [m] ∧
          ready_to_write sock st =
          Ok (mkState (mysel st) (keep_running st) q (bytes_sent st + len m)
                (bytes_received st) (connection st)
                (trace st ++ [Sendall sock m]))) ∨
  (∃ key, outgoing st = [] ∧ mysel st !! sock = Some key ∧
          ready_to_write sock st =
          Ok (mkState (<[sock := mkKey sock EVENT_READ tt]> (mysel st))
                (keep_running st) [] (bytes_sent st) (bytes_received st)
                (connection st) (trace st ++ [Modify sock EVENT_READ]))) ∨
  (outgoing st = [] ∧ mysel st !! sock = None ∧
   ready_to_write sock st = Raise NotRegistered st).
Proof.
  assert (Hq : outgoing st = [] ∨ ∃ q m, outgoing st = q ++ [m]).
  { destruct (outgoing st) as [|m q _] using rev_ind; eauto. }
  destruct Hq as [Hq|(q & m & Hq)].
  - destruct (mysel st !! sock) as [key|] eqn:Hkey.
    + right. left. exists key. repeat split; try done.
      by eapply ready_to_write_modify.
    + right. right. repeat split; try done. by apply ready_to_write_absent.
  - left. exists q, m. split; [done|]. by apply ready_to_write_send.
Qed.

(** The write branch leaves the flag and the count of received bytes alone. *)
Lemma ready_to_write_keeps st :
  keep_running (state_of (ready_to_write sock st)) = keep_running st ∧
  bytes_received (state_of (ready_to_write sock st)) = bytes_received st.
Proof.
  destruct (ready_to_write_cases st)
    as [(q & m & _ & ->)|[(key & _ & _ & ->)|(_ & _ & ->)]]; done.
Qed.

Lemma len_nonneg b : 0 ≤ len b.
Proof. unfold len. lia. Qed.

(** *** The stop condition *)

(** What the read branch leaves in [keep_running]: the loop stops exactly
    when the read returned data, or when everything sent has come back. *)
Lemma keep_running_after_read c r st :
  let data := recv 1024 (ready_recv r) in
  keep_running (ready_to_read c r st) = false ↔
  data ≠ [] ∨
  (bytes_received st + len data ≠ 0 ∧ bytes_received st + len data = bytes_sent st).
Proof.
  intros data. rewrite ready_to_read_eq. fold data. simpl.
  rewrite negb_false_iff, orb_true_iff, andb_true_iff.
  unfold truth_int. rewrite negb_true_iff, Z.eqb_neq, Z.eqb_eq.
  destruct data; simpl; intuition congruence.
Qed.

(** *** Read before write *)

(** C9. Read before write: when the mask of a ready-list entry has both
    [EVENT_READ] and [EVENT_WRITE] set, the body runs the read branch and then
    the write branch on its result; [bytes_received] and [keep_running] are
    set by the read branch from the value [bytes_sent] had before the body,
    and the write branch, which is the only one to change [bytes_sent],
    changes neither of them afterwards. *)
Theorem read_before_write key mask r st :
  truth_int (Z.land mask EVENT_READ) = true →
  truth_int (Z.land mask EVENT_WRITE) = true →
  let data := recv 1024 (ready_recv r) in
  let st1 := ready_to_read (fileobj key) r (entered key mask st) in
  let st2 := state_of (body sock (key, mask, r) st) in
  body sock (key, mask, r) st = ready_to_write sock st1 ∧
  bytes_sent st1 = bytes_sent st ∧
  bytes_received st2 = bytes_received st + len data ∧
  keep_running st2 =
    negb (truth_bytes data
          || (truth_int (bytes_received st + len data)
              && (bytes_received st + len data =? bytes_sent st))) ∧
  ∃ t, trace st2 =
       trace st ++ Dispatch (fileobj key) mask :: Recv (fileobj key) data :: t.
Proof.
  intros Hr Hw data st1 st2.
  assert (Hbody : body sock (key, mask, r) st = ready_to_write sock st1).
  { rewrite body_eq. simpl. by rewrite Hr, Hw. }
  assert (Hst1 : st1 =
            mkState (mysel st)
              (negb (truth_bytes data
                     || (truth_int (bytes_received st + len data)
                         && (bytes_received st + len data =? bytes_sent st))))
              (outgoing st) (bytes_sent st) (bytes_received st + len data)
              (Some (fileobj key))
              (trace st ++ [Dispatch (fileobj key) mask; Recv (fileobj key) data])).
  { unfold st1. rewrite ready_to_read_eq. fold data. unfold entered. simpl.
    by rewrite <- app_assoc. }
  destruct (ready_to_write_keeps st1) as [Hkeep Hrecv].
  clearbody st1.
  split; [done|]. split; [by rewrite Hst1|]. unfold st2. rewrite Hbody.
  split; [by rewrite Hrecv, Hst1|]. split; [by rewrite Hkeep, Hst1|].
  destruct (ready_to_write_cases st1)
    as [(q & m & _ & ->)|[(k & _ & _ & ->)|(_ & _ & ->)]]; simpl;
    rewrite Hst1; simpl; rewrite <- ?app_assoc; simpl; eauto.
Qed.

(** *** The counters *)

Lemma body_counters entry st :
  let st' := state_of (body sock entry st) in
  let data := recv 1024 (ready_recv entry.2) in
  (bytes_sent st' = bytes_sent st ∨
   ∃ m, m ∈ outgoing st ∧ bytes_sent st' = bytes_sent st + len m) ∧
  (bytes_received st' = bytes_received st ∨
   bytes_received st' = bytes_received st + len data).
Proof.
  destruct entry as [[key mask] r]. cbv zeta. rewrite !body_eq. simpl.
  set (st1 := entered key mask st).
  assert (H1 : bytes_sent st1 = bytes_sent st ∧
               bytes_received st1 = bytes_received st ∧
               outgoing st1 = outgoing st) by done.
  destruct H1 as (Hs1 & Hr1 & Hq1). clearbody st1.
  set (st2 := if truth_int (Z.land mask EVENT_READ)
              then ready_to_read (fileobj key) r st1 else st1).
  assert (H2 : bytes_sent st2 = bytes_sent st ∧ outgoing st2 = outgoing st ∧
               (bytes_received st2 = bytes_received st ∨
                bytes_received st2 =
                bytes_received st + len (recv 1024 (ready_recv r)))).
  { unfold st2. destruct (truth_int (Z.land mask EVENT_READ)).
    - rewrite ready_to_read_eq. simpl. rewrite Hr1. auto.
    - auto. }
  destruct H2 as (Hs2 & Hq2 & Hr2). clearbody st2.
  destruct (truth_int (Z.land mask EVENT_WRITE)); simpl; [|auto].
  destruct (ready_to_write_keeps st2) as [_ Hrecv]. rewrite Hrecv.
  split; [|done].
  destruct (ready_to_write_cases st2)
    as [(q & m & Hq & ->)|[(k & _ & _ & ->)|(_ & _ & ->)]]; simpl; auto.
  right. exists m. rewrite <- Hq2, Hq, Hs2. split; [|done].
  apply elem_of_app. right. by left.
Qed.

Lemma body_counters_le entry st :
  bytes_sent st ≤ bytes_sent (state_of (body sock entry st)) ∧
  bytes_received st ≤ bytes_received (state_of (body sock entry st)).
Proof.
  destruct (body_counters entry st) as [[ -> | (m & _ & ->)] [ -> | -> ]];
    split; try lia.
  all: match goal with |- context [len ?b] => pose proof (len_nonneg b); lia end.
Qed.

Lemma main_loop_counters_le polls st :
  bytes_sent st ≤ bytes_sent (final (main_loop sock polls st)) ∧
  bytes_received st ≤ bytes_received (final (main_loop sock polls st)).
Proof.
  apply (while_preserves mysel keep_running (body sock)
           (λ s, bytes_sent st ≤ bytes_sent s ∧ bytes_received st ≤ bytes_received s)).
  - intros entry s [Hs Hr]. destruct (body_counters_le entry s). lia.
  - lia.
Qed.

(** C10. The counters never decrease: both are zero when the loop is
    entered; each run of the loop body leaves [bytes_sent] as it was or adds
    to it the length of a message of the queue, and leaves [bytes_received] as
    it was or adds to it the length of the data read, and these lengths are
    not negative; so after any sequence of polls both counters are at least
    zero, and after a longer sequence they are at least what they were. The
    statements after the loop do not change them. *)
Theorem counters_never_decrease :
  (bytes_sent (startup sock) = 0 ∧ bytes_received (startup sock) = 0) ∧
  (∀ entry st,
     let st' := state_of (body sock entry st) in
     let data := recv 1024 (ready_recv entry.2) in
     (bytes_sent st' = bytes_sent st ∨
      ∃ m, m ∈ outgoing st ∧ 0 ≤ len m ∧ bytes_sent st' = bytes_sent st + len m) ∧
     (bytes_received st' = bytes_received st ∨
      (0 ≤ len data ∧ bytes_received st' = bytes_received st + len data))) ∧
  (∀ polls more,
     let earlier := final (main_loop sock polls (startup sock)) in
     let later := final (main_loop sock (polls ++ more) (startup sock)) in
     0 ≤ bytes_sent earlier ≤ bytes_sent later ∧
     0 ≤ bytes_received earlier ≤ bytes_received later) ∧
  (∀ st, bytes_sent (state_of (shutdown st)) = bytes_sent st ∧
         bytes_received (state_of (shutdown st)) = bytes_received st).
Proof.
  split; [done|]. split; [|split].
  - intros entry st st' data.
    destruct (body_counters entry st) as [Hs Hr]. split.
    + destruct Hs as [Hs|(m & Hm & Hs)]; [by left|].
      right. exists m. auto using len_nonneg.
    + destruct Hr as [Hr|Hr]; [by left|]. right. auto using len_nonneg.
  - intros polls more earlier later.
    pose proof (main_loop_counters_le polls (startup sock)) as [H0s H0r].
    pose proof (while_longer mysel keep_running (body sock)
                  (λ a b, bytes_sent a ≤ bytes_sent b ∧
                          bytes_received a ≤ bytes_received b)
                  polls more (startup sock)) as Hlater.
    destruct Hlater as [Hs Hr].
    + intros st. lia.
    + intros p st. apply main_loop_counters_le.
    + simpl in H0s, H0r. unfold earlier, later, main_loop in *. lia.
  - intros st. unfold shutdown. destruct (connection st); [|done].
    by destruct (unregister _ _).
Qed.

(** *** The order of transmission *)

Lemma transmitted_app t1 t2 :
  transmitted (t1 ++ t2) = transmitted t1 ++ transmitted t2.
Proof. unfold transmitted. apply omap_app. Qed.

Lemma body_transmitted entry st :
  transmitted (trace (state_of (body sock entry st)))
    ++ rev (outgoing (state_of (body sock entry st))) =
  transmitted (trace st) ++ rev (outgoing st).
Proof.
  destruct entry as [[key mask] r]. rewrite body_eq. simpl.
  set (st1 := entered key mask st).
  assert (H1 : transmitted (trace st1) = transmitted (trace st) ∧
               outgoing st1 = outgoing st).
  { unfold st1, entered. simpl. rewrite transmitted_app. simpl.
    by rewrite app_nil_r. }
  destruct H1 as [Ht1 Hq1]. clearbody st1.
  set (st2 := if truth_int (Z.land mask EVENT_READ)
              then ready_to_read (fileobj key) r st1 else st1).
  assert (H2 : transmitted (trace st2) = transmitted (trace st) ∧
               outgoing st2 = outgoing st).
  { unfold st2. destruct (truth_int (Z.land mask EVENT_READ)); [|done].
    rewrite ready_to_read_eq. simpl. rewrite transmitted_app. simpl.
    by rewrite app_nil_r. }
  destruct H2 as [Ht2 Hq2]. clearbody st2. rewrite <- Ht2, <- Hq2.
  destruct (truth_int (Z.land mask EVENT_WRITE)); simpl; [|done].
  destruct (ready_to_write_cases st2)
    as [(q & m & Hq & ->)|[(k & Hq & _ & ->)|(_ & _ & ->)]]; simpl.
  - rewrite transmitted_app, Hq, rev_app_distr. simpl. by rewrite <- app_assoc.
  - rewrite transmitted_app, Hq. simpl. by rewrite app_nil_r.
  - done.
Qed.

(** C6. The order of transmission: a write event on a queue that is not empty
    removes the last message of the queue and sends it; so in every run what
    has been sent, followed by the reverse of what is still queued, is the
    reverse of the initial queue, and once the script's two messages are both
    sent they have gone out in the reverse of their order in the list. *)
Theorem transmission_order :
  (∀ q m st,
     outgoing st = q ++ [m] →
     ready_to_write sock st =
     Ok (mkState (mysel st) (keep_running st) q (bytes_sent st + len m)
           (bytes_received st) (connection st)
           (trace st ++ [Sendall sock m]))) ∧
  (∀ polls q,
     let st := final (main_loop sock polls (startup_with sock q)) in
     transmitted (trace st) ++ rev (outgoing st) = rev q) ∧
  (∀ polls,
     let st := final (main_loop sock polls (startup sock)) in
     outgoing st = [] →
     transmitted (trace st) =
     [list_byte_of_string "This is the message.  ";
      list_byte_of_string "It will be repeated."]).
Proof.
  assert (Hrun : ∀ polls q,
            let st := final (main_loop sock polls (startup_with sock q)) in
            transmitted (trace st) ++ rev (outgoing st) = rev q).
  { intros polls q.
    apply (while_preserves mysel keep_running (body sock)
             (λ s, transmitted (trace s) ++ rev (outgoing s) = rev q)).
    - intros entry s Hs. by rewrite body_transmitted.
    - done. }
  split; [apply ready_to_write_send|]. split; [exact Hrun|].
  intros polls st Hq. specialize (Hrun polls messages). simpl in Hrun.
  fold (startup sock) in Hrun. fold st in Hrun.
  rewrite Hq in Hrun. simpl in Hrun. by rewrite app_nil_r in Hrun.
Qed.

(** *** One registration, two phases *)

Lemma modifications_app t1 t2 :
  modifications (t1 ++ t2) = (modifications t1 + modifications t2)%nat.
Proof. unfold modifications. by rewrite filter_app, length_app. Qed.

(** With [sock] alone in the table and one report per channel, [select]
    returns nothing or the one entry of [sock]. *)
Lemma select_only_sock os interest sel :
  sel = {[ sock := mkKey sock interest tt ]} →
  one_report_per_channel os →
  select os sel = [] ∨
  ∃ r, select os sel = [(mkKey sock interest tt, Z.land (ready_events r) interest, r)] ∧
       Z.land (ready_events r) interest ≠ 0.
Proof.
  intros -> Hos.
  assert (Hentry : ∀ entry, entry ∈ select os {[ sock := mkKey sock interest tt ]} →
            ready_fd entry.2 = sock ∧
            entry = (mkKey sock interest tt, Z.land (ready_events entry.2) interest, entry.2) ∧
            Z.land (ready_events entry.2) interest ≠ 0).
  { intros [[key mask] r] (_ & Hkey & Hmask & Hne)%select_entry. simpl.
    apply lookup_singleton_Some in Hkey as [Hfd <-]. simpl in Hmask. by subst. }
  pose proof (select_NoDup os {[ sock := mkKey sock interest tt ]} Hos) as Hnodup.
  destruct (select os {[ sock := mkKey sock interest tt ]}) as [|e1 [|e2 l]].
  - by left.
  - right. exists e1.2. destruct (Hentry e1) as (_ & He & Hne); [by left|].
    split; [by rewrite <- He|done].
  - exfalso. destruct (Hentry e1) as (H1 & _); [by left|].
    destruct (Hentry e2) as (H2 & _); [right; by left|].
    simpl in Hnodup. apply NoDup_cons in Hnodup as [Hnotin _].
    apply Hnotin. rewrite H1, <- H2. by left.
Qed.

Lemma land_read_only x : Z.land x EVENT_READ ≠ 0 → Z.land x EVENT_READ = EVENT_READ.
Proof.
  unfold EVENT_READ. pose proof (Z.land_ones x 1 ltac:(lia)) as E.
  change (Z.ones 1) with 1 in E. change (2 ^ 1) with 2 in E. rewrite E.
  pose proof (Z.mod_pos_bound x 2). lia.
Qed.

(** The body, run on the entry that [select] returned for [sock], takes the
    client from one state between passes to another, and does not raise. *)
Lemma body_between_passes interest mask r st :
  only_sock sock interest st →
  mask = Z.land (ready_events r) interest → mask ≠ 0 →
  keep_running st = true → between_passes sock st →
  ∃ st', body sock (mkKey sock interest tt, mask, r) st = Ok st' ∧
         between_passes sock st'.
Proof.
  intros Honly Hmask Hne Hrun (Hphase & Hzero & _).
  specialize (Hzero Hrun). rewrite body_eq. simpl.
  set (st1 := entered (mkKey sock interest tt) mask st).
  set (st2 := if truth_int (Z.land mask EVENT_READ)
              then ready_to_read sock r st1 else st1).
  assert (H2 : mysel st2 = mysel st ∧ outgoing st2 = outgoing st ∧
               modifications (trace st2) = modifications (trace st) ∧
               connection st2 = Some sock ∧
               (keep_running st2 = true → bytes_received st2 = 0)).
  { unfold st2. destruct (truth_int (Z.land mask EVENT_READ)).
    - rewrite ready_to_read_eq. unfold st1, entered. simpl.
      rewrite !modifications_app. simpl. repeat split; try done.
      * unfold modifications. simpl. lia.
      * rewrite Hzero. by destruct (recv 1024 (ready_recv r)).
    - unfold st1, entered. simpl. rewrite modifications_app.
      repeat split; try done. }
  destruct H2 as (Hsel2 & Hq2 & Hmod2 & Hconn2 & Hzero2). clearbody st2.
  assert (Hkeep : ∀ st', keep_running st' = keep_running st2 →
                   bytes_received st' = bytes_received st2 →
                   connection st' = connection st2 →
                   phase sock st' → between_passes sock st').
  { intros st' Hk Hr Hc Hp. split; [done|]. rewrite Hk, Hr, Hc. by split. }
  destruct (truth_int (Z.land mask EVENT_WRITE)) eqn:Hw.
  - (* the write branch runs *)
    destruct (ready_to_write_cases st2)
      as [(q & m & Hq & ->)|[(k & Hq & Hk & ->)|(_ & Habs & _)]].
    + eexists. split; [done|]. apply Hkeep; try done.
      destruct Hphase as [[Hm Ho]|(Hm & Ho & Hempty)].
      * left. simpl. rewrite modifications_app, Hmod2, Hm. split; [done|].
        unfold only_sock in *. simpl. by rewrite Hsel2.
      * rewrite <- Hq2, Hq in Hempty. by destruct q.
    + eexists. split; [done|]. apply Hkeep; try done.
      destruct Hphase as [[Hm Ho]|(Hm & Ho & Hempty)].
      * right. simpl. rewrite modifications_app, Hmod2, Hm. split; [done|].
        split; [|done]. unfold only_sock in *. simpl.
        rewrite Hsel2, Ho. apply insert_singleton_eq.
      * (* read-only interest never yields a write event *)
        exfalso. unfold only_sock in Ho, Honly. rewrite Ho in Honly.
        apply (f_equal (λ m, m !! sock)) in Honly.
        rewrite !lookup_singleton_eq in Honly. simplify_eq.
        rewrite (land_read_only (ready_events r) Hne) in Hw. done.
    + exfalso. rewrite Hsel2, Honly, lookup_singleton_eq in Habs. done.
  - (* no write branch *)
    eexists. split; [done|]. apply Hkeep; try done.
    destruct Hphase as [[Hm Ho]|(Hm & Ho & Hempty)].
    + left. rewrite Hmod2. split; [done|]. unfold only_sock in *. by rewrite Hsel2.
    + right. rewrite Hmod2, Hq2. repeat split; try done.
      unfold only_sock in *. by rewrite Hsel2.
Qed.

Lemma phase_only_sock st :
  phase sock st → ∃ interest, only_sock sock interest st.
Proof. intros [[_ H]|(_ & H & _)]; eauto. Qed.

Lemma pass_between_passes os st :
  one_report_per_channel os → keep_running st = true →
  between_passes sock st →
  ∃ st', iteration sock os st = Ok st' ∧ between_passes sock st'.
Proof.
  intros Hos Hrun Hinv. destruct (phase_only_sock st (proj1 Hinv)) as [interest Honly].
  unfold iteration, pass.
  destruct (select_only_sock os interest (mysel st) Honly Hos) as [->|(r & -> & Hne)].
  - eauto.
  - destruct (body_between_passes interest _ r st Honly eq_refl Hne Hrun Hinv)
      as (st' & Hbody & Hinv').
    exists st'. split; [|done]. cbn [for_each]. by rewrite Hbody.
Qed.

Lemma startup_between_passes q : between_passes sock (startup_with sock q).
Proof. split; [by left|]. by split. Qed.

(** In every run on well-formed reports the client does not raise, and it
    stands between two passes when the polls run out or the loop is left. *)
Lemma main_loop_between_passes polls st :
  Forall one_report_per_channel polls → between_passes sock st →
  ∃ st', (main_loop sock polls st = Exited st' ∨
          main_loop sock polls st = Running st') ∧
         between_passes sock st'.
Proof.
  intros Hpolls Hst.
  apply (while_never_crashes mysel keep_running (body sock)
           (between_passes sock) one_report_per_channel); [|done..].
  intros os s. apply pass_between_passes.
Qed.

Lemma final_between_passes polls st :
  Forall one_report_per_channel polls → between_passes sock st →
  between_passes sock (final (main_loop sock polls st)).
Proof.
  intros Hpolls Hst.
  destruct (main_loop_between_passes polls st Hpolls Hst) as (st' & [->| ->] & H);
    done.
Qed.

(** *** The interest transition *)

Lemma interest_only_sock ev st : only_sock sock ev st → interest sock st = ev.
Proof. unfold only_sock, interest. intros ->. by rewrite lookup_singleton_eq. Qed.

Lemma phase_interest st :
  phase sock st →
  (modifications (trace st) = 0%nat ∧
   interest sock st = Z.lor EVENT_READ EVENT_WRITE) ∨
  (modifications (trace st) = 1%nat ∧
   interest sock st = EVENT_READ ∧ outgoing st = []).
Proof.
  intros [[Hm Ho]|(Hm & Ho & Hq)]; [left|right];
    rewrite (interest_only_sock _ _ Ho); done.
Qed.

(** [modify] is called by the body exactly when the mask has [EVENT_WRITE]
    and the queue is empty. *)
Lemma body_modifications key mask r st :
  is_Some (mysel st !! sock) →
  modifications (trace (state_of (body sock (key, mask, r) st))) =
  (modifications (trace st) +
   (if truth_int (Z.land mask EVENT_WRITE) && bool_decide (outgoing st = [])
    then 1 else 0))%nat.
Proof.
  intros Hreg. rewrite body_eq. simpl.
  set (st1 := entered key mask st).
  set (st2 := if truth_int (Z.land mask EVENT_READ)
              then ready_to_read (fileobj key) r st1 else st1).
  assert (H2 : mysel st2 = mysel st ∧ outgoing st2 = outgoing st ∧
               modifications (trace st2) = modifications (trace st)).
  { unfold st2. destruct (truth_int (Z.land mask EVENT_READ)).
    - rewrite ready_to_read_eq. unfold st1, entered. simpl.
      rewrite !modifications_app. repeat split; try done.
      unfold modifications. simpl. lia.
    - unfold st1, entered. simpl. rewrite modifications_app.
      repeat split; try done. }
  destruct H2 as (Hsel2 & Hq2 & Hmod2). clearbody st2.
  destruct (truth_int (Z.land mask EVENT_WRITE)); simpl; [|lia].
  destruct (ready_to_write_cases st2)
    as [(q & m & Hq & ->)|[(k & Hq & Hk & ->)|(_ & Habs & _)]]; simpl.
  - rewrite modifications_app, Hmod2. rewrite <- Hq2, Hq.
    rewrite bool_decide_eq_false_2; [done|]. by destruct q.
  - rewrite modifications_app, Hmod2. rewrite <- Hq2, Hq.
    by rewrite bool_decide_eq_true_2.
  - rewrite Hsel2 in Habs. rewrite Habs in Hreg. by destruct Hreg.
Qed.

Lemma body_trace_grows entry st :
  ∃ more, trace (state_of (body sock entry st)) = trace st ++ more.
Proof.
  destruct entry as [[key mask] r]. rewrite body_eq. simpl.
  set (st1 := entered key mask st).
  set (st2 := if truth_int (Z.land mask EVENT_READ)
              then ready_to_read (fileobj key) r st1 else st1).
  assert (H2 : ∃ more, trace st2 = trace st ++ more).
  { unfold st2. destruct (truth_int (Z.land mask EVENT_READ)).
    - rewrite ready_to_read_eq. unfold st1, entered. simpl.
      rewrite <- app_assoc. eauto.
    - unfold st1, entered. simpl. eauto. }
  destruct H2 as [more H2]. clearbody st2.
  destruct (truth_int (Z.land mask EVENT_WRITE)); simpl; [|eauto].
  destruct (ready_to_write_cases st2)
    as [(q & m & _ & ->)|[(k & _ & _ & ->)|(_ & _ & ->)]]; simpl;
    rewrite H2, <- ?app_assoc; eauto.
Qed.

Lemma main_loop_modifications_le polls st :
  (modifications (trace st)
   ≤ modifications (trace (final (main_loop sock polls st))))%nat.
Proof.
  apply (while_preserves mysel keep_running (body sock)
           (λ s, (modifications (trace st) ≤ modifications (trace s))%nat)); [|lia].
  intros entry s Hs. destruct (body_trace_grows entry s) as [more ->].
  rewrite modifications_app. lia.
Qed.

(** C4. The interest transition: [sock] is registered for reading and
    writing when the loop is entered; the body calls [modify] exactly when the
    mask has [EVENT_WRITE] and the queue is empty; in every run on reports
    with one entry per channel, either [modify] was never called and the
    interest is still reading and writing, or it was called exactly once, the
    queue is empty and the interest is reading only; and once the interest is
    reading only it remains so, with no further call of [modify], over any
    further polls. *)
Theorem interest_transition :
  (∀ q, interest sock (startup_with sock q) = Z.lor EVENT_READ EVENT_WRITE) ∧
  (∀ key mask r st,
     is_Some (mysel st !! sock) →
     modifications (trace (state_of (body sock (key, mask, r) st))) =
     (modifications (trace st) +
      (if truth_int (Z.land mask EVENT_WRITE) && bool_decide (outgoing st = [])
       then 1 else 0))%nat) ∧
  (∀ polls q,
     Forall one_report_per_channel polls →
     let st := final (main_loop sock polls (startup_with sock q)) in
     (modifications (trace st) = 0%nat ∧
      interest sock st = Z.lor EVENT_READ EVENT_WRITE) ∨
     (modifications (trace st) = 1%nat ∧
      interest sock st = EVENT_READ ∧ outgoing st = [])) ∧
  (∀ polls more q,
     Forall one_report_per_channel (polls ++ more) →
     let earlier := final (main_loop sock polls (startup_with sock q)) in
     let later := final (main_loop sock (polls ++ more) (startup_with sock q)) in
     interest sock earlier = EVENT_READ →
     interest sock later = EVENT_READ ∧
     modifications (trace later) = modifications (trace earlier)).
Proof.
  split; [|split; [|split]].
  - intros q. unfold interest. simpl. by rewrite lookup_singleton_eq.
  - apply body_modifications.
  - intros polls q Hpolls st. apply phase_interest.
    apply (final_between_passes polls (startup_with sock q) Hpolls
             (startup_between_passes q)).
  - intros polls more q Hpolls earlier later Hearly.
    apply Forall_app in Hpolls as [Hpolls Hmore].
    pose proof (final_between_passes polls _ Hpolls (startup_between_passes q))
      as [Hph _].
    fold earlier in Hph. apply phase_interest in Hph.
    destruct Hph as [[_ H3]|(Hone & _ & _)].
    { rewrite Hearly in H3. done. }
    assert (Hlater : between_passes sock later ∧
              (modifications (trace earlier) ≤ modifications (trace later))%nat).
    { unfold later, earlier, main_loop. rewrite while_app.
      pose proof (main_loop_between_passes polls (startup_with sock q) Hpolls
                    (startup_between_passes q)) as (st' & Hst' & Hinv).
      unfold main_loop in Hst'.
      destruct Hst' as [-> | ->]; simpl.
      - split; [done|lia].
      - split; [by apply final_between_passes|apply main_loop_modifications_le]. }
    destruct Hlater as [[Hph _] Hle]. apply phase_interest in Hph.
    destruct Hph as [[H0 _]|(H1 & Hi & _)]; [lia|]. split; [done|lia].
Qed.

(** *** Termination *)

(** Once the client has received anything, its loop is over and the three
    statements after it run without raising. *)
Lemma client_stops polls :
  Forall one_report_per_channel polls →
  0 < bytes_received (final (main_loop sock polls (startup sock))) →
  ∃ st st',
    main_loop sock polls (startup sock) = Exited st ∧
    keep_running st = false ∧
    script sock polls = Exited st' ∧
    trace st' = trace st ++ [Unregister sock; Close sock].
Proof.
  intros Hpolls Hrecv.
  destruct (main_loop_between_passes polls (startup sock) Hpolls
              (startup_between_passes messages))
    as (st & [Hst|Hst] & Hph & Hzero & Hconn).
  - pose proof (while_Exited _ _ _ _ _ _ Hst) as Hoff.
    destruct (phase_only_sock st Hph) as [ev Honly].
    exists st. eexists. split; [done|]. split; [done|].
    unfold script. rewrite Hst. unfold shutdown, unregister.
    rewrite (Hconn Hoff), Honly, lookup_singleton_eq. simpl.
    split; [done|]. unfold emit. simpl. by rewrite <- app_assoc.
  - pose proof (while_Running _ _ _ _ _ _ Hst) as Hon.
    rewrite Hst in Hrecv. simpl in Hrecv. rewrite (Hzero Hon) in Hrecv. lia.
Qed.

End WithSocket.

(** C2. The stop condition as the script computes it, on two runs of the
    client on socket 3. After both messages are sent (42 bytes), a read that
    returns the first 22 echoed bytes stops the loop although 20 bytes are
    still to come; and after one message is sent, a zero-length read (the
    peer has closed) leaves the loop running. *)
Theorem stop_condition_as_coded :
  let writable := [mkReady 3 EVENT_WRITE [] 0] in
  let readable data := [mkReady 3 EVENT_READ data 0] in
  let early :=
    main_loop 3 [writable; writable;
                 readable (list_byte_of_string "This is the message.  ")]
      (startup 3) in
  let closed := main_loop 3 [writable; readable []] (startup 3) in
  (keep_running (final early) = false ∧
   bytes_sent (final early) = 42 ∧ bytes_received (final early) = 22) ∧
  (keep_running (final closed) = true ∧
   bytes_sent (final closed) = 22 ∧ bytes_received (final closed) = 0).
Proof. vm_compute. repeat split. Qed.

Lemma read_before_write_witness :
  truth_int (Z.land 3 EVENT_READ) = true ∧
  truth_int (Z.land 3 EVENT_WRITE) = true ∧
  let r := mkReady 7 3 (list_byte_of_string "This is the message.  ") 0 in
  let st := set_bytes_sent 22
              (set_outgoing [list_byte_of_string "It will be repeated."]
                 (startup 7)) in
  bytes_sent (state_of (body 7 (mkKey 7 3 tt, 3, r) st)) = 42 ∧
  bytes_received (state_of (body 7 (mkKey 7 3 tt, 3, r) st)) = 0 + 22 ∧
  keep_running (state_of (body 7 (mkKey 7 3 tt, 3, r) st)) = false.
Proof.
  split; [reflexivity|]. split; [reflexivity|]. intros r st.
  destruct (read_before_write 7 (mkKey 7 3 tt) 3 r st eq_refl eq_refl)
    as (Hbody & Hsent & Hrecv & Hkeep & _).
  split; [|split].
  - rewrite Hbody. reflexivity.
  - exact Hrecv.
  - rewrite Hkeep. reflexivity.
Defined.


End client_properties.

(** ** The two scripts over one connection *)

Module demo_properties.
Import selectors single_shot_demo.

Lemma len_app a b : len (a ++ b) = len a + len b.
Proof. unfold len. rewrite length_app. lia. Qed.

Lemma len_nil_inv b : len b = 0 → b = [].
Proof. unfold len. destruct b; simpl; [done|lia]. Qed.

Lemma len_drop_take n b : len (drop (length (take n b)) b) = len b - len (take n b).
Proof. unfold len. rewrite length_drop, length_take. lia. Qed.

Lemma bytes_read_app a b : bytes_read (a ++ b) = bytes_read a ++ bytes_read b.
Proof. unfold bytes_read. by rewrite omap_app, concat_app. Qed.

Lemma bytes_written_app a b :
  bytes_written (a ++ b) = bytes_written a ++ bytes_written b.
Proof. unfold bytes_written. by rewrite omap_app, concat_app. Qed.

(** *** What one run of the client's body reads and writes *)

Lemma client_body_io sock entry st :
  ∃ io,
    selectors_echo_client.trace
      (state_of (selectors_echo_client.body sock entry st))
    = selectors_echo_client.trace st ++ io ∧
    selectors_echo_client.bytes_sent
      (state_of (selectors_echo_client.body sock entry st))
    = selectors_echo_client.bytes_sent st + len (bytes_written io) ∧
    selectors_echo_client.bytes_received
      (state_of (selectors_echo_client.body sock entry st))
    = selectors_echo_client.bytes_received st + len (bytes_read io) ∧
    (bytes_read io = [] ∨ bytes_read io = recv 1024 (ready_recv entry.2)).
Proof.
  destruct entry as [[key mask] r]. rewrite client_properties.body_eq. simpl.
  set (st1 := selectors_echo_client.entered key mask st).
  set (st2 := if truth_int (Z.land mask EVENT_READ)
              then selectors_echo_client.ready_to_read (fileobj key) r st1 else st1).
  assert (H2 : ∃ io,
            selectors_echo_client.trace st2 = selectors_echo_client.trace st ++ io ∧
            selectors_echo_client.bytes_sent st2 = selectors_echo_client.bytes_sent st ∧
            bytes_written io = [] ∧
            selectors_echo_client.bytes_received st2
            = selectors_echo_client.bytes_received st + len (bytes_read io) ∧
            (bytes_read io = [] ∨ bytes_read io = recv 1024 (ready_recv r))).
  { unfold st2. destruct (truth_int (Z.land mask EVENT_READ)).
    - rewrite client_properties.ready_to_read_eq.
      unfold st1, selectors_echo_client.entered. simpl.
      rewrite <- app_assoc. eexists. split; [done|]. simpl.
      unfold bytes_read, bytes_written. simpl. rewrite app_nil_r. auto.
    - exists [Dispatch (fileobj key) mask]. unfold st1. simpl.
      unfold bytes_read, bytes_written, len. simpl. repeat split; auto; lia. }
  destruct H2 as (io & Ht & Hs & Hw & Hr & Hread). clearbody st2.
  destruct (truth_int (Z.land mask EVENT_WRITE)); simpl.
  - destruct (client_properties.ready_to_write_cases sock st2)
      as [(q & m & _ & ->)|[(k & _ & _ & ->)|(_ & _ & ->)]]; simpl.
    + exists (io ++ [Sendall sock m]). rewrite Ht, <- app_assoc.
      rewrite bytes_written_app, bytes_read_app, Hw, Hs, Hr.
      unfold bytes_written at 1, bytes_read at 2. simpl.
      rewrite !app_nil_r. auto.
    + exists (io ++ [Modify sock EVENT_READ]). rewrite Ht, <- app_assoc.
      rewrite bytes_written_app, bytes_read_app, Hw, Hs, Hr.
      unfold bytes_written at 1, bytes_read at 2. simpl.
      rewrite !app_nil_r. unfold len at 1. simpl. rewrite Z.add_0_r. auto.
    + exists io. rewrite Hw, Hs, Hr. unfold len at 1. simpl.
      rewrite Z.add_0_r. auto.
  - exists io. rewrite Hw, Hs, Hr. unfold len at 1. simpl.
    rewrite Z.add_0_r. auto.
Qed.

(** The three statements after the client's loop run without raising when
    the client stands between two passes with its flag off. *)
Lemma client_shutdown_ok sock st :
  selectors_echo_client.between_passes sock st →
  selectors_echo_client.keep_running st = false →
  ∃ st', selectors_echo_client.shutdown st = Ok st' ∧
         selectors_echo_client.keep_running st' = false ∧
         selectors_echo_client.bytes_sent st' = selectors_echo_client.bytes_sent st ∧
         selectors_echo_client.bytes_received st'
         = selectors_echo_client.bytes_received st.
Proof.
  intros (Hph & _ & Hconn) Hoff.
  destruct (client_properties.phase_only_sock sock st Hph) as [ev Honly].
  unfold selectors_echo_client.shutdown, unregister.
  rewrite (Hconn Hoff), Honly, lookup_singleton_eq. eauto.
Qed.

(** *** What one run of the server's body does *)

Lemma server_body_accept key mask r st :
  data key = selectors_echo_server.callback_accept →
  selectors_echo_server.mysel st !! ready_accept r = None →
  selectors_echo_server.body (key, mask, r) st =
  Ok (selectors_echo_server.mkState
        (<[ready_accept r :=
             mkKey (ready_accept r) EVENT_READ selectors_echo_server.callback_read]>
           (selectors_echo_server.mysel st))
        (selectors_echo_server.keep_running st)
        (selectors_echo_server.trace st ++
         [Dispatch (fileobj key) mask; Accept (fileobj key) (ready_accept r);
          Register (ready_accept r) EVENT_READ])).
Proof.
  intros Hcb Hfree.
  unfold selectors_echo_server.body, selectors_echo_server.callback_of.
  rewrite Hcb. unfold selectors_echo_server.accept, register. simpl.
  rewrite Hfree. unfold selectors_echo_server.emit. simpl.
  by rewrite <- !app_assoc.
Qed.

Lemma server_body_echo key mask r st :
  data key = selectors_echo_server.callback_read →
  recv 1024 (ready_recv r) ≠ [] →
  selectors_echo_server.body (key, mask, r) st =
  Ok (selectors_echo_server.mkState
        (selectors_echo_server.mysel st)
        (selectors_echo_server.keep_running st)
        (selectors_echo_server.trace st ++
         [Dispatch (fileobj key) mask; Recv (fileobj key) (recv 1024 (ready_recv r));
          Sendall (fileobj key) (recv 1024 (ready_recv r))])).
Proof.
  intros Hcb Hdata.
  unfold selectors_echo_server.body, selectors_echo_server.callback_of.
  rewrite Hcb. unfold selectors_echo_server.read.
  destruct (recv 1024 (ready_recv r)) as [|b d]; [done|]. simpl.
  unfold selectors_echo_server.emit. simpl. by rewrite <- !app_assoc.
Qed.

Lemma server_body_eof key mask r st key' :
  data key = selectors_echo_server.callback_read →
  recv 1024 (ready_recv r) = [] →
  selectors_echo_server.mysel st !! fileobj key = Some key' →
  selectors_echo_server.body (key, mask, r) st =
  Ok (selectors_echo_server.mkState
        (delete (fileobj key) (selectors_echo_server.mysel st))
        false
        (selectors_echo_server.trace st ++
         [Dispatch (fileobj key) mask; Recv (fileobj key) [];
          Unregister (fileobj key); Close (fileobj key)])).
Proof.
  intros Hcb Hdata Hkey.
  unfold selectors_echo_server.body, selectors_echo_server.callback_of.
  rewrite Hcb. unfold selectors_echo_server.read. rewrite Hdata. simpl.
  unfold unregister. simpl. rewrite Hkey.
  unfold selectors_echo_server.emit, selectors_echo_server.set_mysel,
    selectors_echo_server.set_keep_running. simpl.
  by rewrite <- !app_assoc.
Qed.


Lemma len_take_drop n b : len (drop n b) + len (take n b) = len b.
Proof.
  unfold len. rewrite <- Nat2Z.inj_add, <- length_app.
  rewrite <- (take_drop n b) at 3. rewrite !length_app. lia.
Qed.

(** What one pass of the client reads and writes, when [sock] alone is
    registered and reported. *)
Lemma client_pass_io sock os st :
  one_report_per_channel os →
  selectors_echo_client.keep_running st = true →
  selectors_echo_client.between_passes sock st →
  ∃ st' io,
    selectors_echo_client.iteration sock os st = Ok st' ∧
    selectors_echo_client.between_passes sock st' ∧
    selectors_echo_client.trace st' = selectors_echo_client.trace st ++ io ∧
    selectors_echo_client.bytes_sent st'
    = selectors_echo_client.bytes_sent st + len (bytes_written io) ∧
    selectors_echo_client.bytes_received st'
    = selectors_echo_client.bytes_received st + len (bytes_read io) ∧
    (bytes_read io = [] ∨
     ∃ r, r ∈ os ∧ bytes_read io = recv 1024 (ready_recv r)).
Proof.
  intros Hos Hrun Hinv.
  destruct (client_properties.pass_between_passes sock os st Hos Hrun Hinv)
    as (st' & Hpass & Hinv').
  exists st'.
  destruct (client_properties.phase_only_sock sock st (proj1 Hinv)) as [ev Honly].
  assert (Hio : ∃ io,
            selectors_echo_client.trace st' = selectors_echo_client.trace st ++ io ∧
            selectors_echo_client.bytes_sent st'
            = selectors_echo_client.bytes_sent st + len (bytes_written io) ∧
            selectors_echo_client.bytes_received st'
            = selectors_echo_client.bytes_received st + len (bytes_read io) ∧
            (bytes_read io = [] ∨
             ∃ r, r ∈ os ∧ bytes_read io = recv 1024 (ready_recv r))).
  { pose proof Hpass as Hrun'.
    unfold selectors_echo_client.iteration, pass in Hrun'.
    destruct (client_properties.select_only_sock sock os ev _ Honly Hos)
      as [Hnone|(r & Hone & Hne)].
    - rewrite Hnone in Hrun'. simpl in Hrun'. injection Hrun' as <-.
      exists []. rewrite app_nil_r. unfold len. simpl.
      split; [done|]. split; [lia|]. split; [lia|]. by left.
    - assert (Hr : r ∈ os).
      { eapply (select_entry os (selectors_echo_client.mysel st)).
        rewrite Hone. by left. }
      rewrite Hone in Hrun'. cbn [for_each] in Hrun'.
      destruct (client_body_io sock
                  (mkKey sock ev tt, Z.land (ready_events r) ev, r) st)
        as (io & Ht & Hs & Hrecv & Hread).
      destruct (selectors_echo_client.body sock _ st) as [st1|e st1]; [|done].
      simpl in Ht, Hs, Hrecv, Hread, Hrun'. injection Hrun' as <-.
      exists io. split; [done|]. split; [done|]. split; [done|].
      destruct Hread as [Hread|Hread]; [by left|right; eauto]. }
  destruct Hio as (io & Hio). exists io. by repeat (split; [done|]).
Qed.

Section Demo.
Variables sock server connection : channel.
Hypothesis distinct : connection ≠ server.

Local Abbreviation turn := (single_shot_demo.turn sock server connection).
Local Abbreviation run := (single_shot_demo.run sock server connection).
Local Abbreviation consistent := (single_shot_demo.consistent sock server connection).
Local Abbreviation drained := (single_shot_demo.drained sock server connection).
Local Abbreviation client_pass := (single_shot_demo.client_pass sock).
Local Abbreviation server_pass := (single_shot_demo.server_pass server connection).

Lemma start_consistent : consistent (start sock server).
Proof.
  split; [|split; [|split; [|split]]]; simpl; try done.
  split; [done|]. apply client_properties.startup_between_passes.
Qed.

Lemma deliver_up_consistent n w : consistent w → consistent (turn (DeliverUp n) w).
Proof.
  intros (Hc & Hs & Hup & Hdown & Hacc).
  split; [done|]. split; [done|]. simpl in *. split; [|by split].
  rewrite Hup, len_app. pose proof (len_take_drop n (wire_up w)). lia.
Qed.

Lemma deliver_down_consistent n w : consistent w → consistent (turn (DeliverDown n) w).
Proof.
  intros (Hc & Hs & Hup & Hdown & Hacc).
  split; [done|]. split; [done|]. simpl in *. split; [done|]. split; [|done].
  rewrite Hdown, len_app. pose proof (len_take_drop n (wire_down w)). lia.
Qed.

Lemma client_pass_consistent w : consistent w → consistent (client_pass w).
Proof.
  intros (Hc & Hs & Hup & Hdown & Hacc). unfold single_shot_demo.client_pass.
  destruct (client w) as [c|c|e c] eqn:Hcl; try by (repeat split; rewrite ?Hcl).
  destruct Hc as [Hrun Hinv]. simpl in Hup, Hdown.
  assert (Hos : one_report_per_channel (client_os sock w)).
  { unfold one_report_per_channel, client_os. simpl. apply NoDup_singleton. }
  destruct (client_pass_io sock _ c Hos Hrun Hinv)
    as (c' & io & Hpass & Hinv' & Ht & Hsent & Hrecv & Hread).
  unfold selectors_echo_client.main_loop.
  rewrite (while_single _ _ _ _ _ Hrun).
  unfold selectors_echo_client.iteration in Hpass. rewrite Hpass.
  assert (Hio : ∀ o : Outcome selectors_echo_client.State,
            final o = c' →
            drop (length (selectors_echo_client.trace c))
                 (selectors_echo_client.trace (final o)) = io).
  { intros o ->. by rewrite Ht, drop_app_length. }
  assert (Hinbox : len (drop (length (bytes_read io)) (inbox_client w))
                   = len (inbox_client w) - len (bytes_read io)).
  { destruct Hread as [->|(r & Hr & ->)]; [unfold len; simpl; rewrite drop_0; lia|].
    apply list_elem_of_singleton in Hr as ->. simpl. apply len_drop_take. }
  assert (Hflow : ∀ c'',
            selectors_echo_client.bytes_sent c'' = selectors_echo_client.bytes_sent c' →
            selectors_echo_client.bytes_received c''
            = selectors_echo_client.bytes_received c' →
            selectors_echo_client.bytes_sent c'' =
              len (wire_up w ++ bytes_written io) + len (inbox_server w) +
              len (selectors_echo_server.echoed_on connection
                     (selectors_echo_server.trace (final (echo_server w)))) ∧
            len (selectors_echo_server.echoed_on connection
                   (selectors_echo_server.trace (final (echo_server w)))) =
              len (wire_down w) +
              len (drop (length (bytes_read io)) (inbox_client w)) +
              selectors_echo_client.bytes_received c'').
  { intros c'' -> ->. rewrite len_app, Hinbox. lia. }
  destruct (selectors_echo_client.keep_running c') eqn:Hrun';
    rewrite Hio by done.
  - split; [done|]. split; [done|]. simpl.
    destruct (Hflow c' eq_refl eq_refl). by repeat split.
  - destruct (client_shutdown_ok sock c' Hinv' Hrun') as (c'' & -> & Hoff & Hs'' & Hr'').
    split; [done|]. split; [done|]. simpl.
    destruct (Hflow c'' Hs'' Hr''). by repeat split.
Qed.

Lemma select_listening r :
  ready_fd r = server → ready_events r = EVENT_READ →
  select [r] (server_table server connection false) =
  [(mkKey server EVENT_READ selectors_echo_server.callback_accept, 1, r)].
Proof.
  intros Hfd Hev. unfold select, server_table. cbn [omap list_omap].
  by rewrite Hfd, lookup_singleton_eq, Hev.
Qed.

Lemma select_connection r :
  ready_fd r = connection → ready_events r = EVENT_READ →
  select [r] (server_table server connection true) =
  [(mkKey connection EVENT_READ selectors_echo_server.callback_read, 1, r)].
Proof.
  intros Hfd Hev. unfold select, server_table. cbn [omap list_omap].
  by rewrite Hfd, lookup_insert_eq, Hev.
Qed.

Lemma server_pass_consistent w : consistent w → consistent (server_pass w).
Proof.
  intros (Hc & Hs & Hup & Hdown & Hacc). unfold single_shot_demo.server_pass.
  destruct (echo_server w) as [s|s|e s] eqn:Hsv; try by (repeat split; rewrite ?Hsv).
  destruct Hs as [Hrun Htable]. cbn [final] in Hup, Hdown, Hacc.
  unfold selectors_echo_server.main_loop.
  rewrite (while_single _ _ _ _ _ Hrun). unfold pass, server_os. rewrite Htable.
  destruct (accepted w) eqn:Ha.
  - (* the connection is accepted *)
    destruct (negb (bool_decide (inbox_server w = []))
              || ended (client w) && bool_decide (wire_up w = [])
                 && bool_decide (inbox_server w = [])) eqn:Hready;
      cbn [andb app].
    + (* and ready to be read *)
      rewrite select_connection by done. cbn [for_each].
      destruct (recv 1024 (inbox_server w)) as [|b d] eqn:Hdata.
      * (* a zero-length read *)
        rewrite (server_body_eof _ _ _ _
                   (mkKey connection EVENT_READ selectors_echo_server.callback_read));
          [|done|done|by rewrite Htable; apply lookup_insert_eq].
        cbn [and_then final selectors_echo_server.trace
               selectors_echo_server.keep_running fileobj].
        rewrite drop_app_length.
        split; [done|]. split; [done|]. cbn [final selectors_echo_server.trace
          wire_up inbox_server wire_down inbox_client accepted client echo_server].
        rewrite server_properties.echoed_on_app.
        change (bytes_read _) with (@nil byte).
        change (bytes_written _) with (@nil byte).
        change (selectors_echo_server.echoed_on connection [_; _; _; _])
          with (@nil byte).
        rewrite drop_0, !app_nil_r. by repeat split.
      * (* data, echoed *)
        rewrite server_body_echo; [|done|by cbn; rewrite Hdata].
        cbn [and_then selectors_echo_server.keep_running fileobj ready_recv].
        rewrite Hrun. cbn [final selectors_echo_server.trace].
        rewrite drop_app_length.
        split; [done|]. split; [done|]. cbn [final selectors_echo_server.trace
          wire_up inbox_server wire_down inbox_client accepted client echo_server].
        rewrite server_properties.echoed_on_app.
        assert (Hio : ∀ x, bytes_read [Dispatch connection 1; Recv connection x;
                                       Sendall connection x] = x ∧
                           bytes_written [Dispatch connection 1; Recv connection x;
                                       Sendall connection x] = x ∧
                           selectors_echo_server.echoed_on connection
                             [Dispatch connection 1; Recv connection x;
                              Sendall connection x] = x).
        { intros x. unfold bytes_read, bytes_written,
            selectors_echo_server.echoed_on. cbn.
          rewrite decide_True by done. cbn. by rewrite !app_nil_r. }
        destruct (Hio (recv 1024 (inbox_server w))) as (-> & -> & ->).
        split; [|split; [|done]].
        -- rewrite len_app. unfold recv. rewrite len_drop_take. lia.
        -- rewrite !len_app. lia.
    + (* nothing to read *)
      change (select [] _) with (@nil (SelectorKey selectors_echo_server.Callback * Z * Ready)).
      cbn [for_each]. rewrite Hrun. cbn [final]. rewrite drop_all.
      split; [done|]. split; [done|]. cbn [final selectors_echo_server.trace
          wire_up inbox_server wire_down inbox_client accepted client echo_server].
      change (bytes_read _) with (@nil byte).
      change (bytes_written _) with (@nil byte).
      rewrite drop_0, !app_nil_r. by repeat split.
  - (* the connection is still pending *)
    cbn [andb app]. rewrite select_listening by done. cbn [for_each].
    rewrite server_body_accept;
      [|done|by rewrite Htable; apply lookup_singleton_ne].
    cbn [and_then selectors_echo_server.keep_running fileobj ready_accept].
    rewrite Hrun. cbn [final selectors_echo_server.trace].
    rewrite drop_app_length.
    split; [done|]. split.
    { cbn. split; [done|]. by rewrite Htable. }
    cbn [final selectors_echo_server.trace
          wire_up inbox_server wire_down inbox_client accepted client echo_server].
    rewrite server_properties.echoed_on_app.
    change (bytes_read _) with (@nil byte).
    change (bytes_written _) with (@nil byte).
    change (selectors_echo_server.echoed_on connection [_; _; _]) with (@nil byte).
    rewrite drop_0, !app_nil_r.
    split; [done|]. split; [done|]. by intros [=].
Qed.

Lemma turn_consistent t w : consistent w → consistent (turn t w).
Proof.
  destruct t; simpl.
  - apply client_pass_consistent.
  - apply server_pass_consistent.
  - apply deliver_up_consistent.
  - apply deliver_down_consistent.
Qed.

Lemma run_consistent schedule w : consistent w → consistent (run schedule w).
Proof.
  revert w. induction schedule as [|t schedule IH]; intros w Hw; [done|].
  simpl. by apply IH, turn_consistent.
Qed.

(** *** Termination *)

(** When everything the client sent has come back to it, nothing is left on
    the way, the client has ended, and the connection was accepted. *)
Lemma all_echoed_drained w N :
  consistent w → 0 < N →
  selectors_echo_client.bytes_sent (final (client w)) = N →
  selectors_echo_client.bytes_received (final (client w)) = N →
  drained w ∧
  ∃ c, client w = Exited c ∧ selectors_echo_client.keep_running c = false.
Proof.
  intros Hw HN Hsent Hrecv. pose proof Hw as (Hc & Hs & Hup & Hdown & Hacc).
  cbn zeta in Hup, Hdown, Hacc.
  pose proof (client_properties.len_nonneg (wire_up w)). pose proof (client_properties.len_nonneg (inbox_server w)).
  pose proof (client_properties.len_nonneg (wire_down w)). pose proof (client_properties.len_nonneg (inbox_client w)).
  assert (Hclient : ∃ c, client w = Exited c ∧
                         selectors_echo_client.keep_running c = false).
  { destruct (client w) as [c|c|e c]; [by eauto| |done].
    destruct Hc as [Hrun (_ & Hzero & _)]. simpl in Hrecv.
    rewrite (Hzero Hrun) in Hrecv. lia. }
  split; [|done]. split; [done|]. split; [|split; [|split]].
  - destruct Hclient as (c & -> & _). done.
  - destruct (accepted w); [done|]. rewrite (Hacc eq_refl) in Hdown.
    unfold len at 1 in Hdown. simpl in Hdown. lia.
  - apply len_nil_inv. lia.
  - apply len_nil_inv. lia.
Qed.

Lemma server_pass_frame w :
  client (server_pass w) = client w ∧
  wire_up (server_pass w) = wire_up w ∧
  (accepted w = true → accepted (server_pass w) = true) ∧
  (inbox_server w = [] → inbox_server (server_pass w) = []).
Proof.
  unfold single_shot_demo.server_pass.
  destruct (echo_server w); simpl; repeat split; try done.
  - by intros ->.
  - intros ->. apply drop_nil.
Qed.

Lemma turn_drained t w : drained w → drained (turn t w).
Proof.
  intros (Hw & Hended & Hacc & Hup & Hin).
  split; [by apply turn_consistent|].
  destruct t; simpl.
  - unfold single_shot_demo.client_pass.
    destruct (client w) eqn:Hc; rewrite ?Hc in Hended; try done;
      by rewrite Hc.
  - destruct (server_pass_frame w) as (-> & -> & Ha & Hi). auto.
  - rewrite Hup, Hin, drop_nil, take_nil. done.
  - done.
Qed.

(** In a drained world a pass of the server is its last. *)
Lemma server_pass_drained w :
  drained w →
  ∃ s, echo_server (server_pass w) = Exited s ∧
       selectors_echo_server.keep_running s = false.
Proof.
  intros ((_ & Hs & _) & Hended & Hacc & Hup & Hin).
  unfold single_shot_demo.server_pass.
  destruct (echo_server w) as [s|s|e s] eqn:Hsv.
  - exists s. by split.
  - destruct Hs as [Hrun Htable].
    unfold selectors_echo_server.main_loop.
    rewrite (while_single _ _ _ _ _ Hrun). unfold pass, server_os.
    rewrite Htable, Hacc, Hended, Hup, Hin. cbn [andb app].
    rewrite !bool_decide_eq_true_2 by done. cbn [negb orb andb].
    rewrite select_connection by done. cbn [for_each].
    rewrite (server_body_eof _ _ _ _
               (mkKey connection EVENT_READ selectors_echo_server.callback_read));
      [|done|done|by rewrite Htable, Hacc; apply lookup_insert_eq].
    cbn. eauto.
  - done.
Qed.

Lemma turn_server_exited t w s :
  echo_server w = Exited s → echo_server (turn t w) = Exited s.
Proof.
  intros Hs. destruct t; simpl; try done.
  - unfold single_shot_demo.client_pass. by destruct (client w).
  - unfold single_shot_demo.server_pass. by rewrite Hs.
Qed.

Lemma run_server_exited schedule w s :
  echo_server w = Exited s → echo_server (run schedule w) = Exited s.
Proof.
  revert w. induction schedule as [|t schedule IH]; intros w Hs; [done|].
  simpl. by apply IH, turn_server_exited.
Qed.

Lemma run_drained schedule w : drained w → drained (run schedule w).
Proof.
  revert w. induction schedule as [|t schedule IH]; intros w Hw; [done|].
  simpl. by apply IH, turn_drained.
Qed.

Lemma run_app a b w : run (a ++ b) w = run b (run a w).
Proof. unfold single_shot_demo.run. apply foldl_app. Qed.

End Demo.

(** C5. Bounded termination of the single-shot demo: in every interleaving
    of client passes, server passes and network deliveries, if the client has
    sent [N > 0] bytes and has received [N] bytes, then the client has left
    its loop and ended, and the server leaves its loop and ends at its next
    pass, whatever is scheduled before and after that pass. *)
Theorem bounded_termination
    (sock server connection : channel) (schedule : list Turn) (N : Z) :
  connection ≠ server →
  let w := run sock server connection schedule (start sock server) in
  0 < N →
  selectors_echo_client.bytes_sent (final (client w)) = N →
  selectors_echo_client.bytes_received (final (client w)) = N →
  (∃ c, client w = Exited c ∧ selectors_echo_client.keep_running c = false) ∧
  ∀ earlier later,
    ∃ s, echo_server
           (run sock server connection (earlier ++ ServerPass :: later) w)
         = Exited s ∧
         selectors_echo_server.keep_running s = false.
Proof.
  intros Hdistinct w HN Hsent Hrecv.
  assert (Hw : consistent sock server connection w).
  { apply run_consistent; [done|]. apply start_consistent. }
  destruct (all_echoed_drained sock server connection Hdistinct w N Hw HN Hsent Hrecv)
    as [Hdrained Hclient].
  split; [done|]. intros earlier later.
  rewrite run_app. simpl.
  pose proof (run_drained sock server connection Hdistinct earlier w Hdrained) as Hd.
  destruct (server_pass_drained sock server connection _ Hd) as (s & Hs & Hoff).
  exists s. split; [|done]. by apply run_server_exited.
Qed.

End demo_properties.

(** ** Runs of the two scripts on concrete answers of the operating system *)

Module demo_runs.
Module S := selectors_echo_server.
Module C := selectors_echo_client.
Import selectors single_shot_demo.

Lemma echo_fidelity_witness :
  let data := list_byte_of_string "This is the message.  " in
  let polls := [[mkReady 3 EVENT_READ [] 4]; [mkReady 4 EVENT_READ data 0];
                [mkReady 4 EVENT_READ [] 0]] in
  let t := S.trace (final (S.script 3 polls)) in
  let l1 := [Register 3 1; Dispatch 3 1; Accept 3 4; Register 4 1;
             Dispatch 4 1; Recv 4 data; Sendall 4 data; Dispatch 4 1] in
  t = l1 ++ Recv 4 [] :: [Unregister 4; Close 4] ∧
  S.received_on 4 t = data ∧
  S.echoed_on 4 t = S.received_on 4 t ∧
  S.echoed_on 4 l1 = S.received_on 4 l1.
Proof.
  intros data polls t l1.
  assert (Ht : t = l1 ++ Recv 4 [] :: [Unregister 4; Close 4]) by reflexivity.
  destruct (proj2 server_properties.echo_fidelity 3%nat polls 4%nat) as [Hall Hbefore].
  split; [exact Ht|]. split; [reflexivity|]. split; [exact Hall|].
  exact (Hbefore l1 [Unregister 4; Close 4] Ht).
Defined.

Lemma eof_terminality_witness :
  let data := list_byte_of_string "This is the message.  " in
  let polls := [[mkReady 3 EVENT_READ [] 4]; [mkReady 4 EVENT_READ data 0];
                [mkReady 4 EVENT_READ [] 0; mkReady 3 EVENT_READ [] 5];
                [mkReady 5 EVENT_READ data 0]] in
  let t := S.trace (final (S.script 3 polls)) in
  let l1 := [Register 3 1; Dispatch 3 1; Accept 3 4; Register 4 1;
             Dispatch 4 1; Recv 4 data; Sendall 4 data; Dispatch 4 1] in
  let l2 := [Unregister 4; Close 4; Dispatch 3 1; Accept 3 5; Register 5 1] in
  Forall one_report_per_channel polls ∧
  t = l1 ++ Recv 4 [] :: l2 ∧
  S.keep_running (final (S.script 3 polls)) = false ∧
  ∃ l3, l2 = Unregister 4 :: Close 4 :: l3 ∧
        Forall (λ e, S.dispatched_on 4 e = false) l3.
Proof.
  intros data polls t l1 l2.
  assert (Hpolls : Forall one_report_per_channel polls) by compute_done.
  assert (Ht : t = l1 ++ Recv 4 [] :: l2) by reflexivity.
  split; [exact Hpolls|]. split; [exact Ht|].
  exact (proj2 server_properties.eof_terminality 3%nat polls 4%nat l1 l2 Hpolls Ht).
Defined.

Lemma interest_transition_witness :
  let writable := [mkReady 7 EVENT_WRITE [] 0] in
  let readable := [mkReady 7 (Z.lor EVENT_READ EVENT_WRITE)
                     (list_byte_of_string "This is the message.  ") 0] in
  let polls := [writable; writable; writable] in
  let more := [writable; readable] in
  let earlier := final (C.main_loop 7 polls (C.startup_with 7 C.messages)) in
  let later := final (C.main_loop 7 (polls ++ more) (C.startup_with 7 C.messages)) in
  Forall one_report_per_channel (polls ++ more) ∧
  C.interest 7 earlier = EVENT_READ ∧
  C.interest 7 later = EVENT_READ ∧
  C.modifications (C.trace later) = C.modifications (C.trace earlier).
Proof.
  intros writable readable polls more earlier later.
  assert (Hpolls : Forall one_report_per_channel (polls ++ more)) by compute_done.
  assert (Hearlier : C.interest 7 earlier = EVENT_READ) by reflexivity.
  split; [exact Hpolls|]. split; [exact Hearlier|].
  exact (proj2 (proj2 (proj2 (client_properties.interest_transition 7%nat)))
           polls more C.messages Hpolls Hearlier).
Defined.

Lemma transmission_order_witness :
  let writable := [mkReady 7 EVENT_WRITE [] 0] in
  let st := final (C.main_loop 7 [writable; writable] (C.startup 7)) in
  C.outgoing st = [] ∧
  C.transmitted (C.trace st) =
  [list_byte_of_string "This is the message.  ";
   list_byte_of_string "It will be repeated."].
Proof.
  intros writable st.
  assert (Hq : C.outgoing st = []) by reflexivity.
  split; [exact Hq|].
  exact (proj2 (proj2 (client_properties.transmission_order 7%nat))
           [writable; writable] Hq).
Defined.

Lemma bounded_termination_witness :
  let schedule :=
    [ClientPass; ClientPass; ServerPass; DeliverUp 30; ServerPass; ServerPass;
     DeliverUp 30; ServerPass; ClientPass; DeliverDown 100; ClientPass] in
  let w := run 7 3 4 schedule (start 7 3) in
  (4 ≠ 3)%nat ∧
  0 < 42 ∧
  C.bytes_sent (final (client w)) = 42 ∧
  C.bytes_received (final (client w)) = 42 ∧
  (∃ c, client w = Exited c ∧ C.keep_running c = false) ∧
  ∃ s, echo_server (run 7 3 4 ([DeliverUp 1; ClientPass] ++ ServerPass :: [ClientPass]) w)
       = Exited s ∧
       S.keep_running s = false.
Proof.
  intros schedule w.
  assert (H1 : (4 ≠ 3)%nat) by lia.
  assert (H2 : 0 < 42) by lia.
  assert (H3 : C.bytes_sent (final (client w)) = 42) by reflexivity.
  assert (H4 : C.bytes_received (final (client w)) = 42) by reflexivity.
  destruct (demo_properties.bounded_termination 7%nat 3%nat 4%nat schedule 42
              H1 H2 H3 H4) as [Hclient Hserver].
  split; [exact H1|]. split; [exact H2|]. split; [exact H3|]. split; [exact H4|].
  split; [exact Hclient|]. exact (Hserver [DeliverUp 1; ClientPass] [ClientPass]).
Defined.

End demo_runs.

(** ** More on the dispatcher loop *)

Section SelectedEntries.
Context {D S : Type}.
Variable mysel : S → gmap nat (selectors.SelectorKey D).
Variable keep_running : S → bool.
Variable body : selectors.SelectorKey D * Z * Ready → S → result S.

(** An invariant that the body preserves on the entries [select] can return
    while it holds is preserved by the whole loop. *)
Lemma for_each_preserves_on (I : S → Prop)
    (Q : selectors.SelectorKey D * Z * Ready → Prop) :
  (∀ entry st, Q entry → I st → I (state_of (body entry st))) →
  ∀ ready st, Forall Q ready → I st → I (state_of (for_each body ready st)).
Proof.
  intros Hbody ready st Hready. revert st.
  induction Hready as [|entry ready Hentry _ IH]; intros st HI; [done|].
  simpl. specialize (Hbody entry st Hentry HI).
  destruct (body entry st) as [st'|e st']; simpl in *; [by apply IH|done].
Qed.

Lemma while_preserves_on (I : S → Prop)
    (Q : selectors.SelectorKey D * Z * Ready → Prop) :
  (∀ os st entry, I st → entry ∈ selectors.select os (mysel st) → Q entry) →
  (∀ entry st, Q entry → I st → I (state_of (body entry st))) →
  ∀ polls st, I st → I (final (while_keep_running mysel keep_running body polls st)).
Proof.
  intros Hsel Hbody. induction polls as [|os polls IH]; intros st HI;
    rewrite while_unfold; destruct (keep_running st); try done.
  assert (Hready : Forall Q (selectors.select os (mysel st))).
  { apply Forall_forall. intros entry Hentry. by eapply Hsel. }
  pose proof (for_each_preserves_on I Q Hbody _ st Hready HI) as H.
  unfold pass. destruct (for_each _ _ _) as [st'|e st']; simpl in *; [by apply IH|done].
Qed.

End SelectedEntries.

(** ** More on the echo server *)

Module server_run_properties.
Import selectors selectors_echo_server echo_notions.

(** What the body does, by the callback of the entry. *)
Lemma body_by_callback key mask r st :
  let c := fileobj key in
  let n := ready_accept r in
  let d := recv 1024 (ready_recv r) in
  match data key with
  | callback_accept =>
      (mysel st !! n = None ∧
       body (key, mask, r) st =
       Ok (mkState (<[n := mkKey n EVENT_READ callback_read]> (mysel st))
             (keep_running st)
             (trace st ++ [Dispatch c mask; Accept c n; Register n EVENT_READ]))) ∨
      (∃ key', mysel st !! n = Some key' ∧
       body (key, mask, r) st =
       Raise DuplicateRegistration
         (mkState (mysel st) (keep_running st)
            (trace st ++ [Dispatch c mask; Accept c n])))
  | callback_read =>
      (d ≠ [] ∧
       body (key, mask, r) st =
       Ok (mkState (mysel st) (keep_running st)
             (trace st ++ [Dispatch c mask; Recv c d; Sendall c d]))) ∨
      (d = [] ∧ is_Some (mysel st !! c) ∧
       body (key, mask, r) st =
       Ok (mkState (delete c (mysel st)) false
             (trace st ++ [Dispatch c mask; Recv c []; Unregister c; Close c]))) ∨
      (d = [] ∧ mysel st !! c = None ∧
       body (key, mask, r) st =
       Raise NotRegistered
         (mkState (mysel st) (keep_running st)
            (trace st ++ [Dispatch c mask; Recv c []])))
  end.
Proof.
  intros c n d. unfold body, callback_of. destruct (data key).
  - unfold accept, emit, set_mysel, register; simpl. fold n.
    destruct (mysel st !! n) as [key'|] eqn:E.
    + right. exists key'. split; [done|]. by rewrite <- !app_assoc.
    + left. split; [done|]. by rewrite <- !app_assoc.
  - unfold read, emit, set_mysel, set_keep_running, unregister; simpl. fold d c.
    destruct d as [|b d'] eqn:Hd; simpl.
    + destruct (mysel st !! c) as [key'|] eqn:E.
      * right. left. split; [done|]. split; [eauto|]. by rewrite <- !app_assoc.
      * right. right. split; [done|]. split; [done|]. by rewrite <- !app_assoc.
    + left. split; [done|]. by rewrite <- !app_assoc.
Qed.

(** *** The shape of the table *)

Lemma select_entry_agrees server os st entry :
  table_shape server (mysel st) →
  entry ∈ select os (mysel st) → entry_agrees server entry.
Proof.
  intros [Hserver Hother]. destruct entry as [[key mask] r].
  intros (_ & Hkey & _)%select_entry. unfold entry_agrees. simpl.
  destruct (decide (ready_fd r = server)) as [Heq|Hne].
  - rewrite Heq, Hserver in Hkey. by simplify_eq.
  - rewrite (Hother _ _ Hkey Hne). done.
Qed.

Lemma body_table_shape server entry st :
  entry_agrees server entry →
  table_shape server (mysel st) →
  table_shape server (mysel (state_of (body entry st))).
Proof.
  destruct entry as [[key mask] r].
  intros Hagree [Hserver Hother]. unfold entry_agrees in Hagree. simpl in Hagree.
  pose proof (body_by_callback key mask r st) as H. cbv zeta in H.
  destruct (data key).
  - destruct H as [[Hfree ->]|(key' & _ & ->)]; simpl; [|done].
    assert (Hn : ready_accept r ≠ server).
    { intros Heq. rewrite Heq, Hserver in Hfree. done. }
    split.
    + by rewrite lookup_insert_ne.
    + intros c k [[<- <-]|[_ Hk]]%lookup_insert_Some Hc; [done|by apply Hother].
  - destruct H as [[_ ->]|[(_ & _ & ->)|(_ & _ & ->)]]; simpl; try done.
    split.
    + by rewrite lookup_delete_ne.
    + intros c k [_ Hk]%lookup_delete_Some Hc. by apply Hother.
Qed.

Lemma startup_table_shape server : table_shape server (mysel (startup server)).
Proof.
  split; simpl.
  - apply lookup_singleton_eq.
  - intros c key Hkey Hc. apply lookup_singleton_Some in Hkey as [-> _]. done.
Qed.

(** X1. In every run of the server the listening socket stays registered for
    read events with [accept] as its callback, and every other registered
    channel is registered under its own descriptor for read events with
    [read] as its callback. *)
Theorem server_table_keeps_shape server polls :
  let sel := mysel (final (script server polls)) in
  sel !! server = Some (mkKey server EVENT_READ callback_accept) ∧
  ∀ c key, sel !! c = Some key → c ≠ server →
           key = mkKey c EVENT_READ callback_read.
Proof.
  apply (while_preserves_on mysel keep_running body
           (λ st, table_shape server (mysel st)) (entry_agrees server)).
  - intros os st entry Hst Hentry. by eapply select_entry_agrees.
  - intros entry st. apply body_table_shape.
  - apply startup_table_shape.
Qed.

(** *** Leaving the loop *)

Lemma body_saw_eof entry st :
  keep_running st = true ∨ saw_eof (trace st) →
  keep_running (state_of (body entry st)) = true ∨
  saw_eof (trace (state_of (body entry st))).
Proof.
  destruct entry as [[key mask] r]. intros Hst.
  assert (Hkeep : ∀ more, saw_eof (trace st) → saw_eof (trace st ++ more)).
  { intros more (c & l1 & l2 & ->). exists c, l1, (l2 ++ more).
    by rewrite <- app_assoc. }
  destruct (server_properties.body_dispatched key mask r st); simpl;
    try (destruct Hst as [Hrun|Heof]; [by left|right; by apply Hkeep]).
  right. exists (fileobj key), (trace st ++ [Dispatch (fileobj key) mask]), [].
  by rewrite <- app_assoc.
Qed.

(** X2. The server leaves its loop only after a zero-length read: when the
    script has left the loop, its trace has a [recv] that returned no bytes,
    followed at once by the [unregister] and the [close] of that connection.
    Timeouts, new connections and data never stop it. *)
Theorem server_exits_only_after_eof server polls st :
  script server polls = Exited st →
  ∃ c l1 l2, trace st = l1 ++ Recv c [] :: Unregister c :: Close c :: l2.
Proof.
  intros Hexit.
  pose proof (while_preserves mysel keep_running body
                (λ s, keep_running s = true ∨ saw_eof (trace s))
                body_saw_eof polls (startup server) (or_introl eq_refl)) as H.
  unfold script, main_loop in Hexit. rewrite Hexit in H. simpl in H.
  rewrite (while_Exited _ _ _ _ _ _ Hexit) in H. by destruct H.
Qed.

(** *** Nothing is sent but echoes *)

Lemma body_sends_only_echo entry st :
  sends_only_echo (trace st) →
  sends_only_echo (trace (state_of (body entry st))).
Proof.
  destruct entry as [[key mask] r]. intros Hst.
  assert (Hold : ∀ more,
            (∀ k l2 c data, more = k ++ Sendall c data :: l2 →
               data ≠ [] ∧ (length data ≤ 1024)%nat ∧
               ∃ l0, trace st ++ k = l0 ++ [Recv c data]) →
            sends_only_echo (trace st ++ more)).
  { intros more Hmore l1 l2 c data Hs.
    apply server_properties.split_at_effect in Hs as [(k & Hk & _)|(k & -> & Hm)].
    - by eapply Hst.
    - by eapply Hmore. }
  pose proof (body_by_callback key mask r st) as H. cbv zeta in H.
  destruct (data key).
  - destruct H as [[_ ->]|(key' & _ & ->)]; simpl; apply Hold;
      intros k l2 c data Hm;
      destruct k as [|? [|? [|? [|? k]]]]; simplify_eq/=; by destruct k.
  - destruct H as [[Hd ->]|[(_ & _ & ->)|(_ & _ & ->)]]; simpl; apply Hold;
      intros k l2 c data Hm;
      destruct k as [|? [|? [|? [|? k]]]]; simplify_eq/=; try (by destruct k).
    split; [done|]. split.
    + unfold recv. rewrite length_take. lia.
    + exists (trace st ++ [Dispatch (fileobj key) mask]). by rewrite <- app_assoc.
Qed.

(** X3. The server sends nothing but echoes: in every run, each [sendall] of
    the trace comes right after a [recv] on the same connection and sends
    exactly the data that [recv] returned, which is not empty and at most
    1024 bytes long. *)
Theorem server_sends_only_echoes server polls l1 l2 c data :
  trace (final (script server polls)) = l1 ++ Sendall c data :: l2 →
  data ≠ [] ∧ (length data ≤ 1024)%nat ∧ ∃ l0, l1 = l0 ++ [Recv c data].
Proof.
  revert l1 l2 c data.
  apply (while_preserves mysel keep_running body
           (λ s, sends_only_echo (trace s)) body_sends_only_echo).
  intros l1 l2 c data H. simpl in H.
  destruct l1 as [|? [|? l1]]; simplify_eq/=.
Qed.

(** *** The only exception *)





End server_run_properties.

(** ** More on the echo client *)

Module client_run_properties.
Import selectors selectors_echo_client single_shot_demo echo_notions.

Section WithSocket.
Variable sock : channel.

(** *** No exception, and a clean end *)



(** *** The counters count *)

Lemma total_app a b : total (a ++ b) = total a + total b.
Proof.
  unfold total, len. rewrite concat_app, length_app. lia.
Qed.

Lemma total_rev q : total (rev q) = total q.
Proof.
  induction q as [|m q IH]; [done|]. simpl. rewrite total_app, IH.
  change (m :: q) with ([m] ++ q). rewrite (total_app [m] q). lia.
Qed.

Lemma bytes_written_transmitted t : bytes_written t = concat (transmitted t).
Proof.
  unfold bytes_written, transmitted. induction t as [|e t IH]; [done|].
  destruct e; simpl; by rewrite ?IH.
Qed.

Lemma body_counters_count entry st :
  bytes_sent st = len (bytes_written (trace st)) ∧
  bytes_received st = len (bytes_read (trace st)) →
  bytes_sent (state_of (body sock entry st))
  = len (bytes_written (trace (state_of (body sock entry st)))) ∧
  bytes_received (state_of (body sock entry st))
  = len (bytes_read (trace (state_of (body sock entry st)))).
Proof.
  intros [Hs Hr].
  destruct (demo_properties.client_body_io sock entry st)
    as (io & -> & -> & -> & _).
  rewrite demo_properties.bytes_written_app, demo_properties.bytes_read_app.
  rewrite !demo_properties.len_app. lia.
Qed.

(** X6. The client's counters count what went over the socket: in every run,
    from any queue of messages, [bytes_sent] is the number of bytes handed to
    [sendall], [bytes_received] is the number of bytes returned by [recv],
    and the bytes sent together with the bytes of the messages still queued
    are the bytes of the initial queue. *)
Theorem client_counters_count polls q :
  let st := final (main_loop sock polls (startup_with sock q)) in
  bytes_sent st = len (bytes_written (trace st)) ∧
  bytes_received st = len (bytes_read (trace st)) ∧
  bytes_sent st + total (outgoing st) = total q.
Proof.
  intros st.
  assert (Hcount : bytes_sent st = len (bytes_written (trace st)) ∧
                   bytes_received st = len (bytes_read (trace st))).
  { apply (while_preserves mysel keep_running (body sock)
             (λ s, bytes_sent s = len (bytes_written (trace s)) ∧
                   bytes_received s = len (bytes_read (trace s)))
             body_counters_count).
    done. }
  assert (Hqueue : transmitted (trace st) ++ rev (outgoing st) = rev q).
  { apply (while_preserves mysel keep_running (body sock)
             (λ s, transmitted (trace s) ++ rev (outgoing s) = rev q)).
    - intros entry s Hs. by rewrite client_properties.body_transmitted.
    - done. }
  destruct Hcount as [Hs Hr]. split; [done|]. split; [done|].
  apply (f_equal total) in Hqueue. rewrite total_app, !total_rev in Hqueue.
  rewrite Hs, bytes_written_transmitted. exact Hqueue.
Qed.

(** *** One read of data at most *)

Lemma pass_one_chunk os st :
  one_report_per_channel os → keep_running st = true →
  between_passes sock st ∧ 0 ≤ bytes_received st ≤ 1024 →
  ∃ st', pass mysel (body sock) os st = Ok st' ∧
         (between_passes sock st' ∧ 0 ≤ bytes_received st' ≤ 1024).
Proof.
  intros Hos Hrun [Hinv _].
  destruct (demo_properties.client_pass_io sock os st Hos Hrun Hinv)
    as (st' & io & Hpass & Hinv' & _ & _ & Hrecv & Hread).
  exists st'. split; [exact Hpass|]. split; [done|].
  destruct Hinv as (_ & Hzero & _). rewrite Hrecv, (Hzero Hrun).
  destruct Hread as [->|(r & _ & ->)].
  - unfold len. simpl. lia.
  - unfold len, recv. rewrite length_take. lia.
Qed.

(** X7. The client reads data once at most: in a run in which the operating
    system reports each channel at most once per [select], from any queue of
    messages, the first [recv] that returns data turns [keep_running] off, so
    the loop is left as soon as anything has been received, and the client
    never receives more than the 1024 bytes of one [recv]. *)
Theorem client_reads_data_once polls q :
  Forall one_report_per_channel polls →
  let o := main_loop sock polls (startup_with sock q) in
  0 ≤ bytes_received (final o) ≤ 1024 ∧
  (0 < bytes_received (final o) → o = Exited (final o)) ∧
  (o = Running (final o) → bytes_received (final o) = 0).
Proof.
  intros Hpolls o.
  destruct (while_never_crashes mysel keep_running (body sock)
              (λ s, between_passes sock s ∧ 0 ≤ bytes_received s ≤ 1024)
              one_report_per_channel pass_one_chunk polls
              (startup_with sock q) Hpolls)
    as (st & Hst & Hinv & Hbound).
  { split; [apply client_properties.startup_between_passes|simpl; lia]. }
  fold (main_loop sock polls (startup_with sock q)) in Hst. fold o in Hst.
  destruct Hinv as (_ & Hzero & _).
  destruct Hst as [Hst|Hst]; rewrite Hst; simpl.
  - split; [done|]. split; [done|]. intros [=].
  - pose proof Hst as Hon. unfold o, main_loop in Hon.
    apply while_Running in Hon. specialize (Hzero Hon).
    split; [done|]. split; [lia|done].
Qed.

End WithSocket.
End client_run_properties.

(** ** The multicast receiver *)

Module receiver_properties.
Import socket_multicast_receiver.





End receiver_properties.

(** ** More runs on concrete answers of the operating system *)

Module more_runs.
Import selectors.

Lemma server_exits_only_after_eof_witness :
  let polls := [[mkReady 3 EVENT_READ [] 4]; []; [mkReady 4 EVENT_READ [] 0]] in
  let st := final (selectors_echo_server.script 3 polls) in
  selectors_echo_server.script 3 polls = Exited st ∧
  ∃ c l1 l2,
    selectors_echo_server.trace st
    = l1 ++ Recv c [] :: Unregister c :: Close c :: l2.
Proof.
  intros polls st.
  assert (H : selectors_echo_server.script 3 polls = Exited st) by reflexivity.
  split; [exact H|].
  exact (server_run_properties.server_exits_only_after_eof 3%nat polls st H).
Defined.

Lemma server_sends_only_echoes_witness :
  let data := list_byte_of_string "It will be repeated." in
  let polls := [[mkReady 3 EVENT_READ [] 4]; [mkReady 4 EVENT_READ data 0]] in
  let l1 := [Register 3 1; Dispatch 3 1; Accept 3 4; Register 4 1;
             Dispatch 4 1; Recv 4 data] in
  selectors_echo_server.trace (final (selectors_echo_server.script 3 polls))
  = l1 ++ Sendall 4 data :: [] ∧
  (length data ≤ 1024)%nat ∧
  ∃ l0, l1 = l0 ++ [Recv 4 data].
Proof.
  intros data polls l1.
  assert (H : selectors_echo_server.trace
                (final (selectors_echo_server.script 3 polls))
              = l1 ++ Sendall 4 data :: []) by reflexivity.
  split; [exact H|].
  exact (proj2 (server_run_properties.server_sends_only_echoes
                  3%nat polls l1 [] 4%nat data H)).
Defined.



Lemma client_reads_data_once_witness :
  let writable := [mkReady 7 EVENT_WRITE [] 0] in
  let polls := [writable; [mkReady 7 EVENT_READ (list_byte_of_string "This is") 0];
                [mkReady 7 EVENT_READ (list_byte_of_string " the message.  ") 0]] in
  let o := selectors_echo_client.main_loop 7 polls
             (selectors_echo_client.startup_with 7 selectors_echo_client.messages) in
  Forall one_report_per_channel polls ∧
  selectors_echo_client.bytes_received (final o) = 7 ∧
  0 ≤ selectors_echo_client.bytes_received (final o) ≤ 1024 ∧
  o = Exited (final o).
Proof.
  intros writable polls o.
  assert (H : Forall one_report_per_channel polls) by compute_done.
  assert (H7 : selectors_echo_client.bytes_received (final o) = 7) by reflexivity.
  destruct (client_run_properties.client_reads_data_once 7%nat polls
              selectors_echo_client.messages H) as (Hbound & Hexit & _).
  split; [exact H|]. split; [exact H7|]. split; [exact Hbound|].
  apply Hexit. fold o. rewrite H7. lia.
Defined.

End more_runs.
